(** * PerspectiveDB: the db child process and its head-lookup channel

    A shallow embedding of the db child (the forked module that owns one
    merge tree): its head-lookup connection handler, its control-message
    state machine, its signal handlers and its start-up sequence, together
    with the contracts of the collaborators it calls (the local tree, the
    line-delimited JSON parser and the oplog adapter).

    Callback-passing code is written in direct style: a function that calls
    back with [(err, value)] returns a [Result]; a handler that acts on a
    connection returns the list of actions it performs on it, in order.
    Logging is recorded in the control-message machine only, where a logged
    error is all there is to the refusal of a request. *)

From Stdlib Require Import ZArith Ascii.
From stdpp Require Import base strings list gmap.

Local Open Scope string_scope.

(** ** Common vocabulary *)

(** The [(err, value)] pair of a node-style callback. *)
Inductive Result (A : Type) : Type :=
| Ok (a : A)
| Err (e : string).
Arguments Ok {A} a.
Arguments Err {A} e.

(** Document bodies: the JSON/BSON values that occur in items and oplog
    records. [JTs] is a MongoDB [Timestamp(low, high)]. *)
#[warnings="-register-all"]
Inductive jsval : Type :=
| JNull
| JBool (b : bool)
| JNum (n : Z)
| JStr (s : string)
| JTs (lo hi : Z)
| JObj (fields : list (string * jsval)).

Definition doc : Type := list (string * jsval).

(** JavaScript truthiness of a string-valued, possibly absent field, as in
    [if (req.id)]: absent and the empty string are both falsy. *)
Definition truthy (f : option string) : bool :=
  match f with
  | Some s => negb (String.eqb s EmptyString)
  | None => false
  end.

(** ** The local tree *)

Module Tree.

(** A version identifier: [vSize] random bytes (three by default). Its
    base64 rendering is never the empty string, so a test such as [!v] on
    a rendered version only holds for [null]. *)
Definition Version : Type := N.

(** Modelled from the spec: the canonical item, with the header fields
    [h.id], [h.v], [h.pa], [h.i], [h.d], [h.c] and the body [b] (absent
    for tombstones). *)
Record Item : Type := mkItem {
  h_id : string;
  h_v : Version;
  h_pa : list Version;
  h_i : nat;
  h_d : bool;
  h_c : bool;
  b : option doc
}.

(** Modelled from the spec: the tree module itself ([./merge_tree] and the
    tree behind [getLocalTree]) is not among the sources. A tree is its
    primary index (the rows by version, in insertion order), its
    insertion-order index (pairs of [i] and version) and the ids whose
    writes are still in the in-memory buffer. *)
Record t : Type := mkTree {
  byVersion : list Item;
  byI : list (nat * Version);
  buffer : list string
}.

(** Options of [getHeads]. *)
Record HeadsOpts : Type := mkOpts {
  o_id : option string;
  o_prefix : option string;
  skipConflicts : bool;
  skipDeletes : bool;
  limit : option nat
}.

(** Modelled from the spec: a head of id X is a version of X that no other
    version of X in the tree names as a parent. *)
Definition referencedBy (x y : Item) : bool :=
  bool_decide (h_id y = h_id x) && bool_decide (h_v x ∈ h_pa y).

Definition isHead (tr : t) (x : Item) : bool :=
  negb (existsb (referencedBy x) (byVersion tr)).

(** Modelled from the spec: the selection by id or by id prefix, and the
    [skipConflicts] and [skipDeletes] filters. *)
Definition matchesOpts (o : HeadsOpts) (x : Item) : bool :=
  match o_id o with
  | Some i => bool_decide (h_id x = i)
  | None =>
      match o_prefix o with
      | Some p => String.prefix p (h_id x)
      | None => true
      end
  end
  && negb (skipConflicts o && h_c x)
  && negb (skipDeletes o && h_d x).

(** Modelled from the spec: the heads that match the options, at most
    [limit] of them. *)
Definition selectHeads (tr : t) (o : HeadsOpts) : list Item :=
  let hs := filter (λ x, isHead tr x && matchesOpts o x) (byVersion tr) in
  match limit o with
  | Some n => take n hs
  | None => hs
  end.

(** The visitor protocol of [getHeads(opts, visit, done)]: every selected
    head is handed to [visit] together with [next]; [next(err)] stops the
    iteration and [done(err)] runs, otherwise [done()] runs after the last
    head. The visitor's captured variables are the accumulator [S]. *)
Fixpoint iterate {S : Type} (visit : Item → S → Result S)
    (hs : list Item) (s : S) : Result S :=
  match hs with
  | [] => Ok s
  | x :: rest =>
      match visit x s with
      | Ok s' => iterate visit rest s'
      | Err e => Err e
      end
  end.

(** Modelled from the spec: [getHeads] yields the heads selected by the
    options one at a time to a visitor that may accept or abort. *)
Definition getHeads {S : Type} (tr : t) (o : HeadsOpts)
    (visit : Item → S → Result S) (s : S) : Result S :=
  iterate visit (selectHeads tr o) s.

(** Modelled from the spec: [inBufferById(id)] is true when a write for
    [id] is in flight but not yet flushed. *)
Definition inBufferById (tr : t) (id : string) : bool :=
  bool_decide (id ∈ buffer tr).

(** Modelled from the spec: the entry of the insertion-order index with
    the largest [i]. *)
Fixpoint maxEntry (es : list (nat * Version)) : option (nat * Version) :=
  match es with
  | [] => None
  | e :: rest =>
      match maxEntry rest with
      | Some m => if Nat.ltb (fst e) (fst m) then Some m else Some e
      | None => Some e
      end
  end.

(** Modelled from the spec: [lastVersion()] returns the version with the
    largest [i], or null. *)
Definition lastVersion (tr : t) : Result (option Version) :=
  Ok (snd <$> maxEntry (byI tr)).

(** Modelled from the spec: [getByVersion(v)] returns the item stored
    under [v], or nothing when there is none. *)
Definition getByVersion (tr : t) (v : Version) : Result (option Item) :=
  Ok (find (λ x, bool_decide (h_v x = v)) (byVersion tr)).

End Tree.

(** ** The head-lookup connection handler *)

Module HeadLookup.
Import Tree.

(** A parsed head-lookup request: [{ id?, prefixExists? }]. *)
Record Request : Type := mkReq {
  req_id : option string;
  req_prefixExists : option string
}.

(** What is written back: a BSON item, or [BSON.serialize({})]. *)
Inductive Payload : Type :=
| PItem (x : Item)
| PEmpty.

(** Actions on the connection. *)
Inductive ConnAction : Type :=
| ConnWrite (p : Payload)
| ConnDestroy.

(** [connErrorHandler(conn, connId, err)]: the error is logged as a
    warning and the connection is destroyed. *)
Definition connErrorHandler (err : string) : list ConnAction :=
  [ConnDestroy].

Definition HeadAmbiguous : string :=
  "already found another non-conflicting and non-deleted head".

(** The visitor that [lookupById] passes to [getHeads]; its captured
    variable [head] is the accumulator. *)
Definition visitHead (x : Item) (head : option Item)
    : Result (option Item) :=
  match head with
  | Some _ => Err HeadAmbiguous
  | None => Ok (Some x)
  end.

Definition byIdOpts (id : string) : HeadsOpts :=
  {| o_id := Some id; o_prefix := None;
     skipConflicts := true; skipDeletes := true; limit := None |}.

(** One run of the body of [lookupById]: it either calls back or arms a
    timer that runs the body again. *)
Inductive Attempt : Type :=
| Callback (r : Result (option Item))
| RetryAfter (ms : nat).

Definition lookupAttempt (tr : Tree.t) (id : string) : Attempt :=
  match getHeads tr (byIdOpts id) visitHead None with
  | Err e => Callback (Err e)
  | Ok (Some head) => Callback (Ok (Some head))
  | Ok None =>
      if inBufferById tr id then RetryAfter 100
      else Callback (Ok None)
  end.

(** [lookupById(id, cb)] over the states in which the local tree is found
    at the successive runs of its body (the call itself, then each timer
    expiry). The result is the list of delays armed so far and the
    callback's arguments, or [None] while the lookup is still waiting on
    its last timer. Each run sees one state of the tree: the heads and the
    buffer are read from the same state. In the source the tree is queried
    with [req.id] and the buffer with the parameter [id]; the only call
    passes [req.id] for [id]. *)
Fixpoint lookupById (states : list Tree.t) (id : string)
    : list nat * option (Result (option Item)) :=
  match states with
  | [] => ([], None)
  | tr :: later =>
      match lookupAttempt tr id with
      | Callback r => ([], Some r)
      | RetryAfter ms =>
          let '(delays, r) := lookupById later id in (ms :: delays, r)
      end
  end.

(** The callback given to [lookupById] in the [req.id] branch. *)
Definition respondById (r : option (Result (option Item)))
    : list ConnAction :=
  match r with
  | None => []
  | Some (Err e) => connErrorHandler e
  | Some (Ok (Some head)) => [ConnWrite (PItem head)]
  | Some (Ok None) => [ConnWrite PEmpty]
  end.

(** The [if (req.id)] branch. *)
Definition headLookupById (states : list Tree.t) (id : string)
    : list ConnAction :=
  respondById (snd (lookupById states id)).

Definition prefixOpts (p : string) : HeadsOpts :=
  {| o_id := None; o_prefix := Some p;
     skipConflicts := false; skipDeletes := false; limit := Some 1 |}.

(** The [else if (req.prefixExists)] branch. *)
Definition headLookupByPrefix (tr : Tree.t) (p : string)
    : list ConnAction :=
  match getHeads tr (prefixOpts p) (λ x _, Ok (Some x)) None with
  | Err e => connErrorHandler e
  | Ok (Some head) => [ConnWrite (PItem head)]
  | Ok None => [ConnWrite PEmpty]
  end.

(** The final [else] branch: the last saved version of the tree. *)
Definition headLookupLast (tr : Tree.t) : list ConnAction :=
  match lastVersion tr with
  | Err e => connErrorHandler e
  | Ok None => [ConnWrite PEmpty]
  | Ok (Some v) =>
      match getByVersion tr v with
      | Err e => connErrorHandler e
      | Ok None => connErrorHandler "head not found"
      | Ok (Some x) => [ConnWrite (PItem x)]
      end
  end.

(** The ['readable'] handler for one parsed request. [tr] is the local
    tree when the request is read and [later] its states at the timer
    expiries that follow. *)
Definition headLookupRequest (tr : Tree.t) (later : list Tree.t)
    (req : Request) : list ConnAction :=
  if truthy (req_id req) then
    headLookupById (tr :: later) (default EmptyString (req_id req))
  else if truthy (req_prefixExists req) then
    headLookupByPrefix tr (default EmptyString (req_prefixExists req))
  else
    headLookupLast tr.






(** The heads that a lookup by [id] visits: the non-conflict, non-deleted
    heads of [id]. *)
Definition liveHeads (tr : Tree.t) (id : string) : list Item :=
  selectHeads tr (byIdOpts id).

(** The state of the tree that makes a lookup by [id] wait: no such head
    on disk while a write for [id] is still buffered. *)
Definition Deferred (id : string) (tr : Tree.t) : Prop :=
  liveHeads tr id = [] ∧ inBufferById tr id = true.

(** A request that names an id. *)
Definition byId (id : string) (p : option string) : Request :=
  {| req_id := Some id; req_prefixExists := p |}.

End HeadLookup.

(** ** Control messages, connections and signals *)

Module Ipc.

(** A connection is known by [getConnectionId(conn)]. *)
Definition ConnId : Type := string.

(** A control message from the parent; the connection is passed
    alongside it as the second argument of the handler. *)
Record Msg : Type := mkMsg {
  msg_type : string;
  msg_perspective : string;
  msg_receiveBeforeSend : bool
}.

Inductive Effect : Type :=
| LogErr (e : string)
| LogWarning (e : string)
| LogNotice (mtStats : string) (connStats : list ConnId)
| Destroy (c : ConnId)
| EndConn (c : ConnId)
| ServeHeadLookup (c : ConnId)
| CreateLocalWriteStream
| StartMerge
| RemoteConnHandler (c : ConnId) (perspective : string) (receiveBeforeSend : bool)
| CloseMergeTree
| CloseDb
| Uncaught (e : string).

(** The module's globals, the listeners it has registered on [process]
    and whether the process is still running. *)
Record State : Type := mkState {
  headLookupReceived : bool;
  localDataChannelReceived : bool;
  autoMergeReceived : bool;
  connections : gset ConnId;
  shuttingDown : bool;
  onMessage : bool;
  onceSIGTERM : bool;
  onceSIGINT : bool;
  running : bool
}.

(** The state in which [postChroot] sends ["listen"]. *)
Definition listening : State :=
  {| headLookupReceived := false; localDataChannelReceived := false;
     autoMergeReceived := false; connections := ∅; shuttingDown := false;
     onMessage := true; onceSIGTERM := true; onceSIGINT := true;
     running := true |}.

Definition set_headLookupReceived (s : State) : State :=
  mkState true (localDataChannelReceived s) (autoMergeReceived s)
    (connections s) (shuttingDown s) (onMessage s) (onceSIGTERM s)
    (onceSIGINT s) (running s).

Definition set_localDataChannelReceived (s : State) : State :=
  mkState (headLookupReceived s) true (autoMergeReceived s)
    (connections s) (shuttingDown s) (onMessage s) (onceSIGTERM s)
    (onceSIGINT s) (running s).

Definition set_autoMergeReceived (s : State) : State :=
  mkState (headLookupReceived s) (localDataChannelReceived s) true
    (connections s) (shuttingDown s) (onMessage s) (onceSIGTERM s)
    (onceSIGINT s) (running s).

Definition set_connections (cs : gset ConnId) (s : State) : State :=
  mkState (headLookupReceived s) (localDataChannelReceived s)
    (autoMergeReceived s) cs (shuttingDown s) (onMessage s)
    (onceSIGTERM s) (onceSIGINT s) (running s).

Definition begin_shutdown (s : State) : State :=
  mkState (headLookupReceived s) (localDataChannelReceived s)
    (autoMergeReceived s) (connections s) true false (onceSIGTERM s)
    (onceSIGINT s) (running s).

Definition drop_onceSIGTERM (s : State) : State :=
  mkState (headLookupReceived s) (localDataChannelReceived s)
    (autoMergeReceived s) (connections s) (shuttingDown s) (onMessage s)
    false (onceSIGINT s) (running s).

Definition drop_onceSIGINT (s : State) : State :=
  mkState (headLookupReceived s) (localDataChannelReceived s)
    (autoMergeReceived s) (connections s) (shuttingDown s) (onMessage s)
    (onceSIGTERM s) false (running s).

Definition stop (s : State) : State :=
  mkState (headLookupReceived s) (localDataChannelReceived s)
    (autoMergeReceived s) (connections s) (shuttingDown s) (onMessage s)
    (onceSIGTERM s) (onceSIGINT s) false.

(** [connErrorHandler(conn, connId, err)]: warn, then try to destroy the
    connection; a missing connection makes [conn.destroy()] throw inside
    the [try], which is caught and logged. *)
Definition connErrorHandler (conn : option ConnId) (err : string)
    : list Effect :=
  LogWarning err ::
  match conn with
  | Some c => [Destroy c]
  | None => [LogWarning "connection write or disconnect error"]
  end.

(** The three connection handlers up to the point where they hand the
    connection to their streams. *)
Definition headLookupConnHandler (c : ConnId) (s : State)
    : State * list Effect :=
  if bool_decide (c ∈ connections s) then
    (s, connErrorHandler (Some c) "connection already exists")
  else
    (set_connections ({[c]} ∪ connections s) s, [ServeHeadLookup c]).

Definition localDataConnHandler (c : ConnId) (s : State)
    : State * list Effect :=
  if bool_decide (c ∈ connections s) then
    (s, connErrorHandler (Some c) "connection already exists")
  else
    (set_connections ({[c]} ∪ connections s) s,
     [CreateLocalWriteStream; StartMerge]).

Definition remoteDataConnHandler (c : ConnId) (pe : string) (rbs : bool)
    (s : State) : State * list Effect :=
  if bool_decide (c ∈ connections s) then
    (s, connErrorHandler (Some c) "connection already exists")
  else
    (set_connections ({[c]} ∪ connections s) s, [RemoteConnHandler c pe rbs]).

(** [shutdown()]. *)
Definition shutdown (s : State) : State * list Effect :=
  if shuttingDown s then (s, [])
  else
    (begin_shutdown s,
     app (EndConn <$> elements (connections s)) [CloseMergeTree; CloseDb]).

(** [handleIncomingMsg(msg, conn)]; [pers] are the names of the
    configured perspectives ([persCfg.pers]). *)
Definition handleIncomingMsg (pers : list string) (msg : Msg)
    (conn : option ConnId) (s : State) : State * list Effect :=
  if String.eqb (msg_type msg) "headLookup" then
    if headLookupReceived s then
      (s, LogErr "already registered a head lookup channel" ::
          connErrorHandler conn "already registered a head lookup channel")
    else
      match conn with
      | Some c => headLookupConnHandler c (set_headLookupReceived s)
      | None => (stop (set_headLookupReceived s), [Uncaught "TypeError"])
      end
  else if String.eqb (msg_type msg) "autoMerge" then
    if autoMergeReceived s then
      (s, [LogErr "already auto merging"])
    else if localDataChannelReceived s then
      (s, [LogErr "already received a local data channel request"])
    else
      (set_autoMergeReceived s, [StartMerge; CreateLocalWriteStream])
  else if String.eqb (msg_type msg) "localDataChannel" then
    match conn with
    | None => (s, [LogErr "handleIncomingMsg connection missing"])
    | Some c =>
        if localDataChannelReceived s then
          (s, LogErr "already received a local data channel request" ::
              connErrorHandler conn
                "already received a local data channel request")
        else if autoMergeReceived s then
          (s, [LogErr "already auto merging"])
        else
          localDataConnHandler c (set_localDataChannelReceived s)
    end
  else if String.eqb (msg_type msg) "remoteDataChannel" then
    match conn with
    | None => (s, [LogErr "handleIncomingMsg connection missing"])
    | Some c =>
        if bool_decide (msg_perspective msg ∈ pers) then
          remoteDataConnHandler c (msg_perspective msg)
            (msg_receiveBeforeSend msg) s
        else
          (s, LogErr "unknown perspective" ::
              connErrorHandler conn "unknown perspective")
    end
  else if String.eqb (msg_type msg) "kill" then
    shutdown s
  else
    (s, LogErr "unknown message type" ::
        connErrorHandler conn "unknown message type").

(** What can happen to the process once it listens: a control message, the
    ['close'] of a registered connection, a signal. [mtStats] is what
    [mt.stats] calls back with at that moment. The ['error'] events of
    connections are not part of the model. *)
Inductive Event : Type :=
| Message (msg : Msg) (conn : option ConnId)
| ConnClose (c : ConnId)
| SIGTERM
| SIGINT
| SIGUSR2 (mtStats : Result string).

(** One event. [process.once(sig, noop)] runs [noop] for the first
    delivery of [sig] and removes the listener; a signal without a
    listener has its default disposition, which ends the process. *)
Definition step (pers : list string) (s : State) (ev : Event)
    : State * list Effect :=
  if running s then
    match ev with
    | Message msg conn =>
        if onMessage s then handleIncomingMsg pers msg conn s else (s, [])
    | ConnClose c => (set_connections (connections s ∖ {[c]}) s, [])
    | SIGTERM =>
        if onceSIGTERM s then (drop_onceSIGTERM s, []) else (stop s, [])
    | SIGINT =>
        if onceSIGINT s then (drop_onceSIGINT s, []) else (stop s, [])
    | SIGUSR2 (Ok mtStats) =>
        (s, [LogNotice mtStats (elements (connections s))])
    | SIGUSR2 (Err e) => (s, [LogErr e])
    end
  else (s, []).

Definition exec (pers : list string) (s : State) (evs : list Event)
    : State :=
  fold_left (λ s ev, fst (step pers s ev)) evs s.

(** The message listener is still registered on a running process. *)
Definition delivered (s : State) : bool := running s && onMessage s.

(** A transition out of [s] that turns a request down: the state is left
    as it was, no local write stream is created, merging is not started,
    and the request, if it was delivered at all, is answered with exactly
    one logged error. *)
Definition Rejected (s : State) (r : State * list Effect) : Prop :=
  fst r = s
  ∧ (CreateLocalWriteStream ∉ snd r)
  ∧ (StartMerge ∉ snd r)
  ∧ (delivered s = true → ∃ e, snd r = [LogErr e]).

Definition autoMergeMsg : Msg := mkMsg "autoMerge" EmptyString false.
Definition localDataChannelMsg : Msg :=
  mkMsg "localDataChannel" EmptyString false.
Definition headLookupMsg : Msg := mkMsg "headLookup" EmptyString false.

End Ipc.

(** ** Start-up of the db child *)

Module Startup.

(** What [fs.stat(dbroot + path)] calls back with. *)
Inductive StatResult : Type :=
| StatFailed
| StatENOENT
| StatFound (isDirectory : bool).

(** The outcome of every fallible step of the start-up sequence. *)
Record Env : Type := mkEnv {
  msgWellTyped : bool;
  loggerErr : bool;
  hookPaths : option bool;
  getpwnamOk : bool;
  getgrnamOk : bool;
  setrlimitOk : bool;
  mkdirpErr : bool;
  stat : StatResult;
  mkdirErr : bool;
  chownErr : bool;
  chrootOk : bool;
  levelErr : bool
}.

(** How the sequence ends: an uncaught exception, [process.exit(code)], or
    the call of [postChroot]. *)
Inductive Outcome : Type :=
| Thrown
| Exit (code : nat)
| PostChroot.

(** [openDbAndProceed()]. *)
Definition openDbAndProceed (e : Env) : Outcome :=
  if levelErr e then Exit 9 else PostChroot.

(** [doChroot(); openDbAndProceed();]. *)
Definition doChrootThenOpen (e : Env) : Outcome :=
  if chrootOk e then openDbAndProceed e else Exit 8.

(** The callback of [mkdirp(dbroot, '755', ...)]. *)
Definition afterMkdirp (e : Env) : Outcome :=
  if mkdirpErr e then Exit 3
  else
    match stat e with
    | StatFailed => Exit 4
    | StatENOENT =>
        if mkdirErr e then Exit 5
        else if chownErr e then Exit 6
        else doChrootThenOpen e
    | StatFound isDir =>
        if isDir then doChrootThenOpen e else Exit 7
    end.

(** The callback of [logger(msg.log, ...)]. *)
Definition afterLogger (e : Env) : Outcome :=
  if loggerErr e then Thrown
  else
    match hookPaths e with
    | Some false => Exit 2
    | _ =>
        if getpwnamOk e && getgrnamOk e then
          if setrlimitOk e then afterMkdirp e else Thrown
        else Exit 3
    end.

(** The listener for the first message (the configuration). *)
Definition startup (e : Env) : Outcome :=
  if msgWellTyped e then afterLogger e else Thrown.

(** How far the sequence gets. *)
Definition reachedHooks (e : Env) : Prop :=
  msgWellTyped e = true ∧ loggerErr e = false.

Definition reachedUserLookup (e : Env) : Prop :=
  reachedHooks e ∧ hookPaths e ≠ Some false.

Definition reachedMkdirp (e : Env) : Prop :=
  reachedUserLookup e
  ∧ getpwnamOk e = true ∧ getgrnamOk e = true ∧ setrlimitOk e = true.

Definition reachedStat (e : Env) : Prop :=
  reachedMkdirp e ∧ mkdirpErr e = false.

Definition reachedChroot (e : Env) : Prop :=
  reachedStat e
  ∧ (stat e = StatFound true
     ∨ (stat e = StatENOENT ∧ mkdirErr e = false ∧ chownErr e = false)).

Definition reachedOpen (e : Env) : Prop :=
  reachedChroot e ∧ chrootOk e = true.

End Startup.

(** ** The oplog adapter *)

Module OplogTransform.

(** An oplog record [{ ts, ns, op, o, o2 }]. *)
Record OplogItem : Type := mkOplogItem {
  ts : jsval;
  ns : string;
  op : string;
  o : doc;
  o2 : option doc
}.

(** A new version [{ h: { id, d? }, m: { _op }, b? }]. *)
Record NewVersion : Type := mkNewVersion {
  nv_id : jsval;
  nv_d : bool;
  nv_op : jsval;
  nv_b : option doc
}.

(** A line of the request channel: [{ id }]. *)
Record LookupRequest : Type := mkLookup { lr_id : option jsval }.

(** The request channel (lines written so far, oldest first) and the
    response channel (BSON items not yet consumed). *)
Record Channels : Type := mkChannels {
  reqChan : list LookupRequest;
  resChan : list doc
}.

Inductive Outcome : Type :=
| Waiting
| Failed (e : string)
| Emitted (nv : NewVersion).

Fixpoint field (k : string) (d : doc) : option jsval :=
  match d with
  | [] => None
  | (k', v) :: rest => if String.eqb k' k then Some v else field k rest
  end.

(** Modelled from the spec: [_oplogUpdateContainsModifier], which its
    tests describe as true when the first key of [o] starts with ["$"]. *)
Definition oplogUpdateContainsModifier (item : OplogItem) : bool :=
  match o item with
  | (k, _) :: _ => String.prefix "$" k
  | [] => false
  end.

Definition PreviousVersionNotFound : string :=
  "previous version of doc not found".

Section Adapter.

(** The update modifier is applied by the database the oplog comes
    from; the adapter only needs its result. *)
Variable applyModifier : doc → doc → doc.

(** Modelled from the spec: the adapter ([oplog_transform]) is not among
    the sources, only its tests are. [_applyOplogFullDoc]. *)
Definition applyOplogFullDoc (item : OplogItem) : Outcome :=
  if negb (String.eqb (op item) "u" || String.eqb (op item) "i") then
    Failed "oplogItem.op must be u or i"
  else
    match field "_id" (o item) with
    | None => Failed "missing oplogItem.o._id"
    | Some id => Emitted (mkNewVersion id false (ts item) (Some (o item)))
    end.

(** Modelled from the spec: [_applyOplogDeleteItem]. *)
Definition applyOplogDeleteItem (item : OplogItem) : Outcome :=
  if negb (String.eqb (op item) "d") then
    Failed "oplogItem.op must be d"
  else
    match field "_id" (o item) with
    | None => Failed "missing oplogItem.o._id"
    | Some id => Emitted (mkNewVersion id true (ts item) None)
    end.

(** Modelled from the spec: [_createNewVersionByUpdateDoc]. *)
Definition createNewVersionByUpdateDoc (dagItem : doc) (item : OplogItem)
    : Outcome :=
  if negb (String.eqb (op item) "u") then
    Failed "oplogItem op must be u"
  else
    match o2 item with
    | None => Failed "Cannot read property '_id' of undefined"
    | Some sel =>
        match field "_id" sel, field "_id" (o item) with
        | None, _ => Failed "missing oplogItem.o2._id"
        | Some _, Some _ => Failed "oplogItem contains o._id"
        | Some id, None =>
            let body :=
              match field "b" dagItem with
              | Some (JObj fs) => fs
              | _ => []
              end in
            Emitted (mkNewVersion id false (ts item)
                       (Some (applyModifier body (o item))))
        end
    end.

(** Modelled from the spec: for an update by modifier the adapter writes
    a single lookup request [{ id }] onto the request channel and awaits
    a BSON item on the response channel; an empty item means that there
    is no previous version. [_applyOplogUpdateModifier]. *)
Definition applyOplogUpdateModifier (item : OplogItem) (ch : Channels)
    : Channels * Outcome :=
  let req := mkLookup (sel ← o2 item; field "_id" sel) in
  let asked := app (reqChan ch) [req] in
  match resChan ch with
  | [] => (mkChannels asked [], Waiting)
  | head :: rest =>
      (mkChannels asked rest,
       match head with
       | [] => Failed PreviousVersionNotFound
       | _ => createNewVersionByUpdateDoc head item
       end)
  end.

(** Modelled from the spec: [_transform] takes the record by reference
    and dispatches on the kind of change; the record as it stands after
    the call is returned next to the channels and the outcome. *)
Definition transform (item : OplogItem) (ch : Channels)
    : OplogItem * Channels * Outcome :=
  if String.eqb (op item) "i" then
    (item, ch, applyOplogFullDoc item)
  else if String.eqb (op item) "u" then
    if oplogUpdateContainsModifier item then
      let '(ch', out) := applyOplogUpdateModifier item ch in
      (item, ch', out)
    else (item, ch, applyOplogFullDoc item)
  else if String.eqb (op item) "d" then
    (item, ch, applyOplogDeleteItem item)
  else (item, ch, Failed "invalid oplogItem").

End Adapter.

End OplogTransform.

(** ** Sample data *)

Module Sample.
Import Tree HeadLookup.

(** A first version of id [y]. *)
Definition itemY : Item :=
  mkItem "y" 1%N [] 1 false false (Some [("some", JBool true)]).

(** A write for [y] is buffered and nothing is on disk yet. *)
Definition buffering : Tree.t := mkTree [] [] ["y"].

(** The write has been flushed. *)
Definition flushed : Tree.t := mkTree [itemY] [(1, 1%N)] [].

(** Two roots of id [x], neither deleted nor a conflict. *)
Definition itemX1 : Item :=
  mkItem "x" 10%N [] 1 false false (Some [("a", JNum 1)]).
Definition itemX2 : Item :=
  mkItem "x" 11%N [] 2 false false (Some [("a", JNum 2)]).
Definition twoHeads : Tree.t :=
  mkTree [itemX1; itemX2] [(1, 10%N); (2, 11%N)] [].

(** A row of the insertion-order index without its row by version. *)
Definition dangling : Tree.t := mkTree [itemY] [(1, 1%N); (2, 7%N)] [].

Definition emptyTree : Tree.t := mkTree [] [] [].

End Sample.

(** ** Runs of the control-message machine *)

Module Trace.
Import Ipc.

(** Everything the child does over a run, in order. *)
Fixpoint effects (pers : list string) (s : State) (evs : list Event)
    : list Effect :=
  match evs with
  | [] => []
  | ev :: rest =>
      app (snd (step pers s ev)) (effects pers (fst (step pers s ev)) rest)
  end.

Definition createsLocalWriter (e : Effect) : bool :=
  match e with
  | CreateLocalWriteStream => true
  | _ => false
  end.

Definition startsMerge (e : Effect) : bool :=
  match e with
  | StartMerge => true
  | _ => false
  end.

Definition servesHeadLookup (e : Effect) : bool :=
  match e with
  | ServeHeadLookup _ => true
  | _ => false
  end.

Definition count (p : Effect → bool) (es : list Effect) : nat :=
  length (List.filter p es).

(** The connection that comes with an event, if any. *)
Definition handedOver (ev : Event) : list ConnId :=
  match ev with
  | Message _ (Some c) => [c]
  | _ => []
  end.


(** A message that sets up a channel on the connection it comes with. *)
Definition opensChannel (m : Msg) : bool :=
  String.eqb (msg_type m) "headLookup"
  || String.eqb (msg_type m) "localDataChannel"
  || String.eqb (msg_type m) "remoteDataChannel".

(** An effect that hands connection [c] to one of the three handlers. *)
Definition handsTo (c : ConnId) (e : Effect) : bool :=
  match e with
  | ServeHeadLookup c' => String.eqb c' c
  | RemoteConnHandler c' _ _ => String.eqb c' c
  | CreateLocalWriteStream => true
  | _ => false
  end.

(** What is left of the single local write stream. *)
Definition writerBudget (s : State) : nat :=
  if autoMergeReceived s || localDataChannelReceived s then 0 else 1.

(** What is left of the single head-lookup channel. *)
Definition lookupBudget (s : State) : nat :=
  if headLookupReceived s then 0 else 1.

End Trace.

(** ** Loading hooks from directories *)

Module HookFiles.

(** [hay.indexOf(needle)]: the position of the first occurrence, or -1. *)
Definition indexOf (needle hay : string) : Z :=
  match String.index 0 needle hay with
  | Some n => Z.of_nat n
  | None => (-1)%Z
  end.

(** The test [file.indexOf('.js') === file.length - 3]. *)
Definition isJsFileName (file : string) : bool :=
  Z.eqb (indexOf ".js" file) (Z.of_nat (String.length file) - 3).

(** [s[s.length - 1]], undefined for the empty string. *)
Definition lastChar (s : string) : option Ascii.ascii :=
  match String.length s with
  | 0 => None
  | S n => String.get n s
  end.

(** [if (dir[dir.length - 1] !== '/') { dir += '/'; }]. *)
Definition ensureTrailingSlash (dir : string) : string :=
  match lastChar dir with
  | Some c => if Ascii.eqb c "/"%char then dir else dir +:+ "/"
  | None => dir +:+ "/"
  end.

(** [path.basename(file, '.js')] for a directory entry (a name without a
    slash): the extension is cut off when the name ends in it. *)
Definition basenameJs (file : string) : string :=
  let n := String.length file in
  if String.eqb (String.substring (n - 3) 3 file) ".js"
  then String.substring 0 (n - 3) file
  else file.

Section Loader.

(** The file system and the module loader: [fs.readdirSync],
    [fs.statSync(p).isFile()] and [require], each of which may throw. *)
Context {Mod : Type}.
Variable readdirSync : string → Result (list string).
Variable statIsFile : string → Result bool.
Variable requireModule : string → Result Mod.

(** [result[name] = module]. The table is a plain object: an assignment to
    the name [__proto__] does not make an own property. *)
Definition setHook (name : string) (m : Mod) (result : gmap string Mod)
    : gmap string Mod :=
  if String.eqb name "__proto__" then result else <[name := m]> result.

(** The body of [files.forEach] for one entry of [dir]. *)
Definition loadFile (dir file : string) (result : gmap string Mod)
    : Result (gmap string Mod) :=
  if isJsFileName file then
    match statIsFile (dir +:+ file) with
    | Err e => Err e
    | Ok false => Ok result
    | Ok true =>
        match requireModule (dir +:+ file) with
        | Err e => Err e
        | Ok m => Ok (setHook (basenameJs file) m result)
        end
    end
  else Ok result.

Fixpoint loadFiles (dir : string) (files : list string)
    (result : gmap string Mod) : Result (gmap string Mod) :=
  match files with
  | [] => Ok result
  | file :: rest =>
      match loadFile dir file result with
      | Err e => Err e
      | Ok result' => loadFiles dir rest result'
      end
  end.

(** The body of [hooks.forEach] for one directory. *)
Definition loadDir (dir : string) (result : gmap string Mod)
    : Result (gmap string Mod) :=
  match readdirSync (ensureTrailingSlash dir) with
  | Err e => Err e
  | Ok files => loadFiles (ensureTrailingSlash dir) files result
  end.

Fixpoint loadDirs (dirs : list string) (result : gmap string Mod)
    : Result (gmap string Mod) :=
  match dirs with
  | [] => Ok result
  | dir :: rest =>
      match loadDir dir result with
      | Err e => Err e
      | Ok result' => loadDirs rest result'
      end
  end.

(** [requireJsFromDirsSync(hooks)]. *)
Definition requireJsFromDirsSync (hooks : list string)
    : Result (gmap string Mod) :=
  loadDirs hooks ∅.

(** Where an entry of the table comes from: a regular file that passes the
    name test in one of the directories, loaded under its base name. *)
Definition LoadedFrom (dirs : list string) (name : string) (m : Mod)
    : Prop :=
  ∃ dir files file,
    dir ∈ dirs
    ∧ readdirSync (ensureTrailingSlash dir) = Ok files
    ∧ file ∈ files
    ∧ isJsFileName file = true
    ∧ statIsFile (ensureTrailingSlash dir +:+ file) = Ok true
    ∧ requireModule (ensureTrailingSlash dir +:+ file) = Ok m
    ∧ basenameJs file = name.

End Loader.

End HookFiles.

(** ** Hooks of a perspective *)

Module Hooks.

(** A value of a hooks configuration: JSON, or a list of key names as
    [hide] has it. *)
Inductive OptVal : Type :=
| OJson (v : jsval)
| OKeys (ks : list string).

(** A plain object: its keys in insertion order. *)
Definition Obj : Type := list (string * OptVal).

Fixpoint getKey {A : Type} (k : string) (o : list (string * A)) : option A :=
  match o with
  | [] => None
  | (k', v) :: rest => if String.eqb k' k then Some v else getKey k rest
  end.

(** [o[k] = v]: an existing key keeps its place. *)
Fixpoint setKey {A : Type} (k : string) (v : A) (o : list (string * A))
    : list (string * A) :=
  match o with
  | [] => [(k, v)]
  | (k', v') :: rest =>
      if String.eqb k' k then (k, v) :: rest else (k', v') :: setKey k v rest
  end.

(** [delete o[k]]. *)
Definition delKey {A : Type} (k : string) (o : list (string * A))
    : list (string * A) :=
  List.filter (λ kv, negb (String.eqb (fst kv) k)) o.

Definition jsTruthy (v : jsval) : bool :=
  match v with
  | JNull => false
  | JBool b => b
  | JNum n => negb (Z.eqb n 0)
  | JStr s => negb (String.eqb s EmptyString)
  | JTs _ _ => true
  | JObj _ => true
  end.

Definition optTruthy (v : OptVal) : bool :=
  match v with
  | OJson j => jsTruthy j
  | OKeys _ => true
  end.

(** The [hooksOpts] of one direction of a perspective: the object under
    its own key [hooksOpts], when there is one, and its other keys. *)
Record HooksOpts : Type := mkHooksOpts {
  nested : option Obj;
  own : Obj
}.

Definition reserved : list string :=
  ["filter"; "hooks"; "hooksOpts"; "hide"].

(** [createHooksOpts(cfg)]: every key of [cfg] that is not reserved is
    copied onto [cfg.hooksOpts || {}]. *)
Definition createHooksOpts (cfg : HooksOpts) : Obj :=
  fold_left
    (λ hooksOpts kv,
       if bool_decide (fst kv ∈ reserved) then hooksOpts
       else setKey (fst kv) (default (snd kv) (getKey (fst kv) (own cfg)))
              hooksOpts)
    (own cfg) (default [] (nested cfg)).

(** A hook: a loaded module, a member that the table of loaded hooks
    inherits from [Object.prototype], or the function that
    [ensureHideHook] makes. *)
Inductive Hook (Mod : Type) : Type :=
| Loaded (m : Mod)
| Inherited (name : string)
| Hide (keysToHide : OptVal).
Arguments Loaded {Mod} m.
Arguments Inherited {Mod} name.
Arguments Hide {Mod} keysToHide.

(** The hook that [ensureHideHook] pushes, run on an item: it deletes the
    keys one after the other; a [hide] that is not a list has no
    [forEach]. *)
Definition runHide (keysToHide : OptVal) (item : doc) : Result doc :=
  match keysToHide with
  | OKeys ks => Ok (fold_left (λ it k, delKey k it) ks item)
  | OJson _ => Err "TypeError: keysToHide.forEach is not a function"
  end.

(** [ensureHideHook(hooksOpts, hooks)]. *)
Definition ensureHideHook {Mod : Type} (hooksOpts : HooksOpts)
    (hooks : list (Hook Mod)) : list (Hook Mod) :=
  match getKey "hide" (own hooksOpts) with
  | Some v => if optTruthy v then app hooks [Hide v] else hooks
  | None => hooks
  end.

(** The names that every plain object answers to through
    [Object.prototype]. *)
Definition objectPrototypeNames : list string :=
  ["constructor"; "toString"; "toLocaleString"; "valueOf";
   "hasOwnProperty"; "isPrototypeOf"; "propertyIsEnumerable";
   "__defineGetter__"; "__defineSetter__"; "__lookupGetter__";
   "__lookupSetter__"; "__proto__"].

(** [cfg.loadedHooks[hookName]], where the table is the plain object that
    [requireJsFromDirsSync] returned (or [{}]) and every loaded module is
    truthy. *)
Definition lookupHook {Mod : Type} (loadedHooks : gmap string Mod)
    (hookName : string) : option (Hook Mod) :=
  match loadedHooks !! hookName with
  | Some m => Some (Loaded m)
  | None =>
      if bool_decide (hookName ∈ objectPrototypeNames)
      then Some (Inherited hookName) else None
  end.

(** [replaceHookNames(hooks)]: the first name that is not found throws. *)
Fixpoint replaceHookNames {Mod : Type} (loadedHooks : gmap string Mod)
    (hooks : list string) : Result (list (Hook Mod)) :=
  match hooks with
  | [] => Ok []
  | hookName :: rest =>
      match lookupHook loadedHooks hookName with
      | None => Err "hook requested that is not loaded"
      | Some h =>
          match replaceHookNames loadedHooks rest with
          | Err e => Err e
          | Ok hs => Ok (h :: hs)
          end
      end
  end.

(** One direction ([import] or [export]) of a perspective as configured. *)
Record Direction : Type := mkDirection {
  hooks : option (list string);
  hooksOpts : option HooksOpts
}.

(** The options of a direction after [postChroot] has gone over it. *)
Inductive PreparedOpts : Type :=
| Untouched (ho : HooksOpts)
| Flattened (o : Obj).

Record Prepared (Mod : Type) : Type := mkPrepared {
  p_hooks : option (list (Hook Mod));
  p_hooksOpts : option PreparedOpts
}.
Arguments mkPrepared {Mod} p_hooks p_hooksOpts.
Arguments p_hooks {Mod} p.
Arguments p_hooksOpts {Mod} p.

(** What the loop over the perspectives does to one direction. *)
Definition prepareDirection {Mod : Type} (loadedHooks : gmap string Mod)
    (d : Direction) : Result (Prepared Mod) :=
  match hooks d with
  | None => Ok (mkPrepared None (Untouched <$> hooksOpts d))
  | Some names =>
      match replaceHookNames loadedHooks names with
      | Err e => Err e
      | Ok hs =>
          match hooksOpts d with
          | None => Ok (mkPrepared (Some hs) None)
          | Some ho =>
              Ok (mkPrepared (Some (ensureHideHook ho hs))
                    (Some (Flattened (createHooksOpts ho))))
          end
      end
  end.

End Hooks.

(** ** The logger *)

Module Logger.

(** The priorities, [EMERG] = 0 to [DEBUG2] = 8. *)
Definition PRIOS : list string :=
  ["EMERG"; "ALERT"; "CRIT"; "ERR"; "WARNING"; "NOTICE"; "INFO"; "DEBUG";
   "DEBUG2"].

Definition ERR : Z := 3.
Definition NOTICE : Z := 5.
Definition ERR_THRESHOLD : Z := 3.

(** [s.toUpperCase()] on ASCII text. *)
Definition toUpperChar (a : Ascii.ascii) : Ascii.ascii :=
  let n := Ascii.nat_of_ascii a in
  if Nat.leb 97 n && Nat.leb n 122 then Ascii.ascii_of_nat (n - 32) else a.

Fixpoint toUpperCase (s : string) : string :=
  match s with
  | EmptyString => EmptyString
  | String a rest => String (toUpperChar a) (toUpperCase rest)
  end.

Definition isAsciiText (s : string) : Prop :=
  Forall (λ a, Ascii.nat_of_ascii a < 128) (String.list_ascii_of_string s).

(** [list.indexOf(x)], with [None] for -1. *)
Fixpoint arrayIndexOf (x : string) (l : list string) : option nat :=
  match l with
  | [] => None
  | y :: rest =>
      if String.eqb y x then Some 0 else S <$> arrayIndexOf x rest
  end.

(** [levelToPrio(name)]; [None] is [null]. *)
Definition levelToPrio (name : option string) : option nat :=
  if truthy name
  then arrayIndexOf (toUpperCase (default EmptyString name)) PRIOS
  else None.

(** The value of an option as JavaScript sees it. [AStream] is an object;
    its flag says whether its [write] is a function. *)
Inductive JsArg : Type :=
| AUndefined
| ANull
| ABool (b : bool)
| ANum (n : Z)
| AStr (s : string)
| AStream (hasWrite : bool).

Definition typeOf (a : JsArg) : string :=
  match a with
  | AUndefined => "undefined"
  | ANull => "object"
  | ABool _ => "boolean"
  | ANum _ => "number"
  | AStr _ => "string"
  | AStream _ => "object"
  end.

Definition argTruthy (a : JsArg) : bool :=
  match a with
  | AUndefined => false
  | ANull => false
  | ABool b => b
  | ANum n => negb (Z.eqb n 0)
  | AStr s => negb (String.eqb s EmptyString)
  | AStream _ => true
  end.

(** The options object; [None] is a key that the object does not have. *)
Record Opts : Type := mkOpts {
  o_ident : option JsArg;
  o_file : option JsArg;
  o_error : option JsArg;
  o_console : option JsArg;
  o_mask : option JsArg;
  o_silence : option JsArg
}.

(** What [logger] works with once the options are checked. *)
Record Settings : Type := mkSettings {
  ident : string;
  file : option JsArg;
  error : option JsArg;
  cons : bool;
  mask : Z;
  silence : bool
}.

(** The check of [opts.file] and of [opts.error]. *)
Definition checkStream (noWrite notStringOrNumber : string)
    (v : option JsArg) : Result unit :=
  match v with
  | None => Ok tt
  | Some a =>
      if String.eqb (typeOf a) "object" then
        match a with
        | AStream true => Ok tt
        | AStream false => Err noWrite
        | _ => Err "TypeError: Cannot read property 'write' of null"
        end
      else if negb (String.eqb (typeOf a) "string")
              && negb (String.eqb (typeOf a) "number")
      then Err notStringOrNumber
      else Ok tt
  end.

Definition optTruthy (v : option JsArg) : bool :=
  match v with
  | Some a => argTruthy a
  | None => false
  end.

(** The synchronous part of [logger(opts, cb)] up to the start of the
    tasks: every [throw] is an [Err]. *)
Definition checkOpts (o : Opts) : Result Settings :=
  match o_ident o with
  | Some (AStr _) | None =>
      match checkStream "opts.file writable stream must have a write function"
              "opts.file must be a string or a number" (o_file o) with
      | Err e => Err e
      | Ok _ =>
      match checkStream
              "opts.error writable stream must have a write function"
              "opts.error must be a string or a number" (o_error o) with
      | Err e => Err e
      | Ok _ =>
      match o_console o with
      | Some (ABool _) | None =>
      match o_mask o with
      | Some (ANum _) | None =>
      match o_silence o with
      | Some (ABool _) | None =>
          let cons := match o_console o with Some (ABool b) => b | _ => false end in
          let silence := match o_silence o with Some (ABool b) => b | _ => false end in
          if negb cons && negb (optTruthy (o_file o))
             && negb (optTruthy (o_error o)) && negb silence
          then Err "configure at least one logging method"
          else
            Ok {| ident := match o_ident o with
                           | Some (AStr s) =>
                               if String.eqb s EmptyString then "logger" else s
                           | _ => "logger"
                           end;
                  file := o_file o;
                  error := o_error o;
                  cons := cons;
                  mask := match o_mask o with Some (ANum n) => n | _ => NOTICE end;
                  silence := silence |}
      | Some _ => Err "opts.silence must be a boolean"
      end
      | Some _ => Err "opts.mask must be a priority number"
      end
      | Some _ => Err "opts.console must be a boolean"
      end
      end
      end
  | Some _ => Err "opts.ident must be a string"
  end.

(** What became of one call of [openFile]. *)
Inductive Opened : Type :=
| OpenedOk
| OpenFailed (e : string)
| OpenThrew (e : string).

(** [openFile(file, cb)]; [fsOpen] is what the file system makes of a file
    name (the ['open'] or the ['error'] event of the stream). *)
Definition openFile (fsOpen : string → Result unit) (file : JsArg) : Opened :=
  match file with
  | AStream true => OpenedOk
  | AStream false => OpenFailed "file must support write"
  | ANull => OpenThrew "TypeError: Cannot read property 'write' of null"
  | ANum _ => OpenedOk
  | AStr path =>
      match fsOpen path with
      | Ok _ => OpenedOk
      | Err e => OpenFailed e
      end
  | AUndefined | ABool _ => OpenFailed "file not opened"
  end.

(** The tasks that [logger] starts: the tick, then one per file to open. *)
Definition taskCount (st : Settings) : nat :=
  1 + (if optTruthy (file st) then 1 else 0)
    + (if optTruthy (error st) then 1 else 0).

(** A call of the callback of [logger] (or of [close]). *)
Inductive Callback : Type :=
| CbErr (e : string)
| CbDone.

(** The callbacks of the tasks in the order in which the tasks complete:
    a failing task calls back with its error, a succeeding one counts
    itself and calls back when the count has reached the number of
    tasks. *)
Fixpoint runTasks (total tasksDone : nat) (completions : list (Result unit))
    : list Callback :=
  match completions with
  | [] => []
  | Ok _ :: rest =>
      if Nat.eqb (S tasksDone) total
      then CbDone :: runTasks total (S tasksDone) rest
      else runTasks total (S tasksDone) rest
  | Err e :: rest => CbErr e :: runTasks total tasksDone rest
  end.

(** Where a line goes. *)
Inductive Sink : Type :=
| LogFile
| ErrFile
| Stderr
| Stdout.

(** The state of an open logger: the settings and the streams that were
    opened. *)
Record Open : Type := mkOpen {
  settings : Settings;
  logFile : bool;
  errFile : bool
}.

(** [log(prio, ...)]; [line] is the formatted message. *)
Definition log (l : Open) (prio : Z) (line : string)
    : list (Sink * string) :=
  if Z.ltb (mask (settings l)) prio || silence (settings l) then []
  else
    app (if logFile l then [(LogFile, line)] else [])
      (app (if errFile l && Z.leb prio ERR_THRESHOLD
            then [(ErrFile, line)] else [])
         (if cons (settings l)
          then [if Z.leb prio ERR_THRESHOLD
                then (Stderr, line) else (Stdout, line)]
          else [])).

(** The errors among the completions, in order. *)
Definition errorsOf (completions : list (Result unit)) : list string :=
  omap (λ r, match r with Err e => Some e | Ok _ => None end) completions.

Definition allOk (completions : list (Result unit)) : bool :=
  forallb (λ r, match r with Ok _ => true | Err _ => false end) completions.

(** The same logger with another mask. *)
Definition withMask (m : Z) (l : Open) : Open :=
  {| settings :=
       {| ident := ident (settings l); file := file (settings l);
          error := error (settings l); cons := cons (settings l);
          mask := m; silence := silence (settings l) |};
     logFile := logFile l; errFile := errFile l |}.

(** What [bin/pdb] makes of its log configuration before it calls
    [logger]: [level] defaults to ['NOTICE'] and [mask] is set to
    [levelToPrio(level)], a number or [null]. *)
Definition pdbLogOpts (logCfg : Opts) (level : option string) : Opts :=
  {| o_ident := Some (AStr "pdb");
     o_file := o_file logCfg;
     o_error := o_error logCfg;
     o_console := o_console logCfg;
     o_mask :=
       Some (match levelToPrio
                     (Some (if truthy level
                            then default EmptyString level else "NOTICE"))
             with
             | Some i => ANum (Z.of_nat i)
             | None => ANull
             end);
     o_silence := o_silence logCfg |}.

End Logger.

(** ** The path of a store *)

Module OpenDb.





End OpenDb.

(** ** More sample data *)

Module SampleHooks.

(** A hooks directory with a hook, a two-character file, a text file and a
    sub-directory whose name ends in [.js]. *)
Definition readdirSync (dir : string) : Result (list string) :=
  if String.eqb dir "/hooks/"
  then Ok ["strip.js"; "ab"; "notes.txt"; "sub.js"]
  else Err "ENOENT".

Definition statIsFile (path : string) : Result bool :=
  Ok (negb (String.eqb path "/hooks/sub.js")).

Definition requireModule (path : string) : Result string :=
  Ok path.

Definition table : gmap string string :=
  <["ab" := "/hooks/ab"]> (<["strip" := "/hooks/strip.js"]> ∅).

Definition direction : Hooks.Direction :=
  Hooks.mkDirection (Some ["strip"])
    (Some (Hooks.mkHooksOpts None
             [("hide", Hooks.OKeys ["password"]);
              ("field", Hooks.OJson (JStr "secret"))])).

Definition logOpts : Logger.Opts :=
  Logger.mkOpts None (Some (Logger.AStr "/var/log/persdb.log"))
    (Some (Logger.AStr "/var/log/persdb-error.log"))
    (Some (Logger.ABool true)) None None.

Definition refuse (path : string) : Result unit := Err "EACCES".

End SampleHooks.

(** * Properties *)

Local Open Scope nat_scope.
Local Open Scope list_scope.

(** ** Head lookup by id *)

Section HeadLookupFacts.
Import Tree HeadLookup.

Lemma iterate_visitHead (hs : list Item) :
  iterate visitHead hs None =
    match hs with
    | [] => Ok None
    | [x] => Ok (Some x)
    | _ :: _ :: _ => Err HeadAmbiguous
    end.
Proof. destruct hs as [|x [|y rest]]; reflexivity. Qed.

(** One run of the body of [lookupById], by the number of heads found. *)
Lemma lookupAttempt_cases (tr : Tree.t) (id : string) :
  lookupAttempt tr id =
    match liveHeads tr id with
    | [] => if inBufferById tr id then RetryAfter 100 else Callback (Ok None)
    | [x] => Callback (Ok (Some x))
    | _ :: _ :: _ => Callback (Err HeadAmbiguous)
    end.
Proof.
  unfold lookupAttempt, getHeads, liveHeads.
  rewrite iterate_visitHead.
  destruct (selectHeads tr (byIdOpts id)) as [|x [|y rest]]; reflexivity.
Qed.

Lemma lookupAttempt_deferred (tr : Tree.t) (id : string) :
  Deferred id tr → lookupAttempt tr id = RetryAfter 100.
Proof.
  intros [Hnone Hbuf]. rewrite lookupAttempt_cases, Hnone, Hbuf. reflexivity.
Qed.

Lemma lookupAttempt_settled (tr : Tree.t) (id : string) :
  ¬ Deferred id tr → ∃ r, lookupAttempt tr id = Callback r.
Proof.
  intros Hnot. rewrite lookupAttempt_cases. unfold Deferred in Hnot.
  destruct (liveHeads tr id) as [|x [|y rest]]; eauto.
  destruct (inBufferById tr id); eauto. exfalso. auto.
Qed.

(** While the tree stays in a deferring state the lookup keeps arming a
    100 ms timer and does not call back. *)
Lemma lookupById_pending (pre : list Tree.t) (id : string) :
  Forall (Deferred id) pre →
  lookupById pre id = (repeat 100 (length pre), None).
Proof.
  induction 1 as [|tr pre Htr _ IH]; [reflexivity|].
  cbn [lookupById]. rewrite (lookupAttempt_deferred _ _ Htr), IH.
  reflexivity.
Qed.

(** The lookup calls back at the first state that does not defer it. *)
Lemma lookupById_settles (pre : list Tree.t) (tr : Tree.t)
    (later : list Tree.t) (id : string) (r : Result (option Item)) :
  Forall (Deferred id) pre →
  lookupAttempt tr id = Callback r →
  lookupById (pre ++ tr :: later) id = (repeat 100 (length pre), Some r).
Proof.
  intros Hpre Hr. induction Hpre as [|s pre Hs _ IH].
  - cbn. rewrite Hr. reflexivity.
  - cbn [app lookupById length repeat].
    rewrite (lookupAttempt_deferred _ _ Hs), IH. reflexivity.
Qed.

Lemma truthy_Some (id : string) : id ≠ EmptyString → truthy (Some id) = true.
Proof.
  intros Hne. cbn. destruct (String.eqb_spec id EmptyString); [contradiction|].
  reflexivity.
Qed.

(** A request with a non-empty id is served by the lookup by id. *)
Lemma headLookupRequest_byId (tr : Tree.t) (later : list Tree.t)
    (id : string) (p : option string) :
  id ≠ EmptyString →
  headLookupRequest tr later (byId id p) = headLookupById (tr :: later) id.
Proof.
  intros Hne. unfold headLookupRequest, byId. cbn [req_id].
  rewrite (truthy_Some _ Hne). reflexivity.
Qed.

Lemma headLookupById_settles (pre : list Tree.t) (tr : Tree.t)
    (later : list Tree.t) (id : string) (r : Result (option Item)) :
  Forall (Deferred id) pre →
  lookupAttempt tr id = Callback r →
  headLookupById (pre ++ tr :: later) id = respondById (Some r).
Proof.
  intros Hpre Hr. unfold headLookupById.
  rewrite (lookupById_settles _ _ _ _ _ Hpre Hr). reflexivity.
Qed.

End HeadLookupFacts.

Section HeadLookupClaims.
Import Tree HeadLookup.

(** C2, as stated, fails: the lookup has no retry budget. Whatever bound
    is proposed, a tree that keeps the id buffered without a head on disk
    for one more state makes the lookup arm one more timer, and the lookup
    has still not called back. *)
Lemma lookupById_no_retry_budget :
  ¬ ∃ budget : nat, ∀ (states : list Tree.t) (id : string),
      length (fst (lookupById states id)) ≤ budget.
Proof.
  intros [budget Hbound].
  specialize (Hbound (repeat Sample.buffering (S budget)) "y").
  rewrite lookupById_pending in Hbound.
  - cbn [fst] in Hbound. rewrite !repeat_length in Hbound. lia.
  - apply Forall_forall. intros tr Htr.
    apply list_elem_of_In, repeat_spec in Htr. subst tr.
    split; reflexivity.
Qed.

(** C2, amended: when no head is on disk and the id is in the write
    buffer, the lookup retries after 100 ms; it has armed exactly one
    100 ms timer per such state and has not called back while they last,
    and it calls back at the first state that does not defer it. *)
Theorem lookupById_retries_while_deferred
    (pre : list Tree.t) (tr : Tree.t) (later : list Tree.t) (id : string) :
  Forall (Deferred id) pre →
  ¬ Deferred id tr →
  (∀ s, s ∈ pre → lookupAttempt s id = RetryAfter 100)
  ∧ lookupById pre id = (repeat 100 (length pre), None)
  ∧ ∃ r, lookupAttempt tr id = Callback r
         ∧ lookupById (pre ++ tr :: later) id
           = (repeat 100 (length pre), Some r).
Proof.
  intros Hpre Htr. split; [|split].
  - intros s Hs. apply lookupAttempt_deferred.
    rewrite Forall_forall in Hpre. auto.
  - apply lookupById_pending, Hpre.
  - destruct (lookupAttempt_settled _ _ Htr) as [r Hr].
    exists r. split; [exact Hr|]. apply lookupById_settles; assumption.
Qed.

Lemma lookupById_retries_while_deferred_witness :
  lookupById [Sample.buffering; Sample.buffering; Sample.flushed] "y"
  = ([100; 100], Some (Ok (Some Sample.itemY))).
Proof.
  destruct (lookupById_retries_while_deferred
              [Sample.buffering; Sample.buffering] Sample.flushed [] "y")
    as (_ & _ & r & Hr & Hrun).
  - repeat constructor.
  - intros [Hnone _]. vm_compute in Hnone. discriminate Hnone.
  - vm_compute in Hr. injection Hr as <-. exact Hrun.
Defined.



(** C4, as stated, fails for the empty id: [if (req.id)] is false for it,
    so the request is answered with the last saved version of the tree
    although the tree holds no head of that id. *)
Lemma headLookup_empty_id_is_not_by_id :
  ¬ ∀ (tr : Tree.t) (later : list Tree.t) (id : string),
      inBufferById tr id = false →
      (headLookupRequest tr later (byId id None) = [ConnWrite PEmpty]
       ↔ liveHeads tr id = []).
Proof.
  intros Hclaim.
  destruct (Hclaim Sample.flushed [] EmptyString) as [_ Hnull];
    [reflexivity|].
  specialize (Hnull eq_refl). vm_compute in Hnull. discriminate Hnull.
Qed.

(** C4, amended: for every non-empty id, once the lookup is no longer
    deferred by the write buffer, the channel answers with the empty
    object if and only if the local tree holds no non-deleted,
    non-conflict head of the id, and when it holds exactly one such head
    that head is the answer. *)
Theorem headLookup_null_iff_no_live_head
    (pre : list Tree.t) (tr : Tree.t) (later : list Tree.t)
    (first : Tree.t) (rest : list Tree.t) (id : string)
    (p : option string) :
  id ≠ EmptyString →
  first :: rest = pre ++ tr :: later →
  Forall (Deferred id) pre →
  (inBufferById tr id = false →
     (headLookupRequest first rest (byId id p) = [ConnWrite PEmpty]
      ↔ liveHeads tr id = []))
  ∧ ∀ x, liveHeads tr id = [x] →
         headLookupRequest first rest (byId id p) = [ConnWrite (PItem x)].
Proof.
  intros Hne Hstates Hpre.
  rewrite (headLookupRequest_byId _ _ _ _ Hne), Hstates.
  pose proof (lookupAttempt_cases tr id) as Hatt.
  split.
  - intros Hbuf. rewrite Hbuf in Hatt.
    destruct (liveHeads tr id) as [|x [|y more]];
      rewrite (headLookupById_settles _ _ _ _ _ Hpre Hatt);
      unfold respondById, connErrorHandler;
      split; intros Heq; solve [reflexivity | discriminate Heq].
  - intros x Hone. rewrite Hone in Hatt.
    rewrite (headLookupById_settles _ _ _ _ _ Hpre Hatt). reflexivity.
Qed.

Lemma headLookup_null_iff_no_live_head_witness :
  (headLookupRequest Sample.buffering [Sample.emptyTree] (byId "y" None)
     = [ConnWrite PEmpty]
   ↔ liveHeads Sample.emptyTree "y" = [])
  ∧ headLookupRequest Sample.buffering [Sample.flushed] (byId "y" None)
    = [ConnWrite (PItem Sample.itemY)].
Proof.
  split.
  - apply (headLookup_null_iff_no_live_head
             [Sample.buffering] Sample.emptyTree [] _ _ "y" None);
      [discriminate | reflexivity | repeat constructor | reflexivity].
  - apply (headLookup_null_iff_no_live_head
             [Sample.buffering] Sample.flushed [] _ _ "y" None);
      [discriminate | reflexivity | repeat constructor | reflexivity].
Defined.

End HeadLookupClaims.

(** ** The request channel and the last saved version *)

Section HeadLookupChannel.
Import Tree HeadLookup.




Lemma maxEntry_elem (es : list (nat * Version)) (m : nat * Version) :
  maxEntry es = Some m → m ∈ es.
Proof.
  revert m. induction es as [|e es IH]; intros m; cbn [maxEntry];
    [discriminate|].
  destruct (maxEntry es) as [m'|].
  - destruct (Nat.ltb_spec (fst e) (fst m')); intros [= <-].
    + right. apply IH. reflexivity.
    + left.
  - intros [= <-]. left.
Qed.

Lemma maxEntry_largest (es : list (nat * Version)) (m : nat * Version) :
  maxEntry es = Some m → ∀ e, e ∈ es → fst e ≤ fst m.
Proof.
  revert m. induction es as [|e0 es IH]; intros m; cbn [maxEntry];
    [discriminate|].
  destruct (maxEntry es) as [m'|] eqn:Hmax.
  - destruct (Nat.ltb_spec (fst e0) (fst m')) as [Hlt|Hge];
      intros [= <-] e [->|He]%elem_of_cons; try lia.
    + apply IH; [reflexivity|exact He].
    + specialize (IH m' eq_refl e He). lia.
  - intros [= <-] e [->|He]%elem_of_cons; [lia|].
    destruct es; [inversion He|]. cbn [maxEntry] in Hmax.
    destruct (maxEntry es); [|discriminate].
    destruct (Nat.ltb _ _); discriminate.
Qed.

Lemma maxEntry_nonempty (es : list (nat * Version)) :
  es ≠ [] → ∃ m, maxEntry es = Some m.
Proof.
  destruct es as [|e es]; [contradiction|]. intros _. cbn [maxEntry].
  destruct (maxEntry es) as [m|]; [|eauto].
  destruct (Nat.ltb _ _); eauto.
Qed.




(** C10: a request with neither an id nor a prefix is answered with the
    item stored under the version that has the largest insertion sequence
    [i] in the local tree, or with the empty object when the tree is
    empty; the handler fails (and destroys the connection) only when that
    version cannot be fetched back by version. *)
Theorem headLookup_last_saved_version
    (tr : Tree.t) (later : list Tree.t) (req : Request) :
  req_id req = None →
  req_prefixExists req = None →
  (byI tr = [] → headLookupRequest tr later req = [ConnWrite PEmpty])
  ∧ (byI tr ≠ [] →
     ∃ i v, (i, v) ∈ byI tr
            ∧ (∀ e, e ∈ byI tr → fst e ≤ i)
            ∧ lastVersion tr = Ok (Some v)
            ∧ ((∃ x, getByVersion tr v = Ok (Some x) ∧ h_v x = v
                     ∧ headLookupRequest tr later req
                       = [ConnWrite (PItem x)])
               ∨ (getByVersion tr v = Ok None
                  ∧ headLookupRequest tr later req = [ConnDestroy])))
  ∧ (headLookupRequest tr later req = [ConnDestroy] →
     ∃ v, lastVersion tr = Ok (Some v) ∧ getByVersion tr v = Ok None).
Proof.
  intros Hid Hprefix.
  unfold headLookupRequest. rewrite Hid, Hprefix. cbn [truthy].
  unfold headLookupLast, lastVersion, getByVersion.
  split; [|split].
  - intros ->. reflexivity.
  - intros Hne. destruct (maxEntry_nonempty _ Hne) as [[i v] Hmax].
    exists i, v. rewrite Hmax. cbn [fmap option_fmap option_map snd].
    split; [apply maxEntry_elem; exact Hmax|].
    split; [intros e He; apply (maxEntry_largest _ _ Hmax e He)|].
    split; [reflexivity|].
    destruct (find _ _) as [x|] eqn:Hfind.
    + left. exists x. split; [reflexivity|]. split; [|reflexivity].
      apply find_some in Hfind. destruct Hfind as [_ Hv].
      apply bool_decide_eq_true in Hv. exact Hv.
    + right. split; reflexivity.
  - destruct (maxEntry (byI tr)) as [[i v]|];
      cbn [fmap option_fmap option_map snd]; [|discriminate].
    destruct (find _ _) as [x|] eqn:Hfind; [discriminate|].
    intros _. exists v. rewrite Hfind. split; reflexivity.
Qed.

Lemma headLookup_last_saved_version_witness :
  headLookupRequest Sample.twoHeads [] (mkReq None None)
    = [ConnWrite (PItem Sample.itemX2)]
  ∧ headLookupRequest Sample.emptyTree [] (mkReq None None)
    = [ConnWrite PEmpty]
  ∧ headLookupRequest Sample.dangling [] (mkReq None None) = [ConnDestroy].
Proof.
  destruct (headLookup_last_saved_version Sample.twoHeads []
              (mkReq None None) eq_refl eq_refl) as (_ & Hlast & _).
  destruct (headLookup_last_saved_version Sample.emptyTree []
              (mkReq None None) eq_refl eq_refl) as (Hempty & _ & _).
  destruct (headLookup_last_saved_version Sample.dangling []
              (mkReq None None) eq_refl eq_refl) as (_ & Hdangling & _).
  split; [|split].
  - destruct Hlast as (i & v & _ & _ & Hv & [(x & Hx & _ & Hresp)|[Hx _]]).
    + discriminate.
    + vm_compute in Hv. injection Hv as <-. vm_compute in Hx.
      injection Hx as <-. exact Hresp.
    + vm_compute in Hv. injection Hv as <-. vm_compute in Hx.
      discriminate Hx.
  - apply Hempty. reflexivity.
  - destruct Hdangling as (i & v & _ & _ & Hv & [(x & Hx & _ & _)|[_ Hresp]]).
    + discriminate.
    + vm_compute in Hv. injection Hv as <-. vm_compute in Hx.
      discriminate Hx.
    + exact Hresp.
Defined.

End HeadLookupChannel.

(** ** Auto-merge and the local data channel *)

Section IpcFacts.
Import Ipc.
Variable pers : list string.

(** Unfold one transition and split on everything it tests. *)
Ltac step_cases s ev :=
  destruct s as [hl ldc am cs sd om st si run];
  destruct ev as [[ty pe rbs] [c|]|c| | |[stats|e]];
  unfold step, handleIncomingMsg, headLookupConnHandler,
    localDataConnHandler, remoteDataConnHandler, shutdown;
  cbn [running onMessage msg_type msg_perspective msg_receiveBeforeSend
       headLookupReceived localDataChannelReceived autoMergeReceived
       connections shuttingDown onceSIGTERM onceSIGINT
       set_headLookupReceived set_localDataChannelReceived
       set_autoMergeReceived];
  repeat match goal with
         | |- context [if ?b then _ else _] => destruct b eqn:?
         end;
  cbn in *.

(** An effect that is not in an explicit list of effects. *)
Ltac not_among :=
  let H := fresh "Hin" in
  intros H;
  repeat (apply elem_of_cons in H; destruct H as [H|H]; [discriminate H|]);
  apply elem_of_nil in H; exact H.

(** The two flags are never cleared. *)
Lemma step_keeps_autoMerge (s : State) (ev : Event) :
  autoMergeReceived s = true →
  autoMergeReceived (fst (step pers s ev)) = true.
Proof. step_cases s ev; congruence. Qed.

Lemma step_keeps_localDataChannel (s : State) (ev : Event) :
  localDataChannelReceived s = true →
  localDataChannelReceived (fst (step pers s ev)) = true.
Proof. step_cases s ev; congruence. Qed.

(** No transition sets one flag while the other is set. *)
Lemma step_keeps_exclusive (s : State) (ev : Event) :
  autoMergeReceived s && localDataChannelReceived s = false →
  autoMergeReceived (fst (step pers s ev))
    && localDataChannelReceived (fst (step pers s ev)) = false.
Proof. step_cases s ev; congruence. Qed.

Lemma exec_keeps_autoMerge (evs : list Event) (s : State) :
  autoMergeReceived s = true → autoMergeReceived (exec pers s evs) = true.
Proof.
  revert s. induction evs as [|ev evs IH]; intros s Hs; [exact Hs|].
  apply IH, step_keeps_autoMerge, Hs.
Qed.

Lemma exec_keeps_localDataChannel (evs : list Event) (s : State) :
  localDataChannelReceived s = true →
  localDataChannelReceived (exec pers s evs) = true.
Proof.
  revert s. induction evs as [|ev evs IH]; intros s Hs; [exact Hs|].
  apply IH, step_keeps_localDataChannel, Hs.
Qed.

Lemma exec_keeps_exclusive (evs : list Event) (s : State) :
  autoMergeReceived s && localDataChannelReceived s = false →
  autoMergeReceived (exec pers s evs)
    && localDataChannelReceived (exec pers s evs) = false.
Proof.
  revert s. induction evs as [|ev evs IH]; intros s Hs; [exact Hs|].
  apply IH, step_keeps_exclusive, Hs.
Qed.

(** A local data channel request that arrives while auto-merging. *)
Lemma localDataChannel_rejected (s : State) (m : Msg) (c : option ConnId) :
  msg_type m = "localDataChannel" →
  autoMergeReceived s = true →
  localDataChannelReceived s = false →
  Rejected s (step pers s (Message m c)).
Proof.
  destruct s as [hl ldc am cs sd om st si run], m as [ty pe rbs].
  cbn. intros -> -> ->.
  unfold Rejected, step, handleIncomingMsg, delivered. cbn.
  destruct run, om, c; cbn;
    repeat split; try not_among; try discriminate; eauto.
Qed.

(** An auto-merge request that arrives after a local data channel. *)
Lemma autoMerge_rejected (s : State) (m : Msg) (c : option ConnId) :
  msg_type m = "autoMerge" →
  localDataChannelReceived s = true →
  Rejected s (step pers s (Message m c)).
Proof.
  destruct s as [hl ldc am cs sd om st si run], m as [ty pe rbs].
  cbn. intros -> ->.
  unfold Rejected, step, handleIncomingMsg, delivered. cbn.
  destruct run, om, am; cbn;
    repeat split; try not_among; try discriminate; eauto.
Qed.

(** C1: auto-merge and an external local data channel are never both
    engaged. Once an [autoMerge] message has been accepted, every later
    [localDataChannel] message is turned down with an error and no local
    write stream is created; once a [localDataChannel] message has been
    accepted, every later [autoMerge] message is turned down with an
    error and merging is not started. *)
Theorem autoMerge_excludes_localDataChannel
    (before between : list Event) (m1 m2 : Msg) (c1 c2 : option ConnId) :
  let s1 := exec pers listening before in
  let s2 := fst (step pers s1 (Message m1 c1)) in
  let s3 := exec pers s2 between in
  autoMergeReceived s1 && localDataChannelReceived s1 = false
  ∧ autoMergeReceived s3 && localDataChannelReceived s3 = false
  ∧ (msg_type m1 = "autoMerge" →
     autoMergeReceived s1 = false → autoMergeReceived s2 = true →
     msg_type m2 = "localDataChannel" →
     Rejected s3 (step pers s3 (Message m2 c2)))
  ∧ (msg_type m1 = "localDataChannel" →
     localDataChannelReceived s1 = false →
     localDataChannelReceived s2 = true →
     msg_type m2 = "autoMerge" →
     Rejected s3 (step pers s3 (Message m2 c2))).
Proof.
  intros s1 s2 s3.
  assert (Hexcl : autoMergeReceived s3 && localDataChannelReceived s3 = false).
  { unfold s3, s2, s1.
    apply exec_keeps_exclusive, step_keeps_exclusive, exec_keeps_exclusive.
    reflexivity. }
  split; [apply exec_keeps_exclusive; reflexivity|].
  split; [exact Hexcl|]. split.
  - intros _ _ Haccepted Hm2.
    assert (Ham : autoMergeReceived s3 = true)
      by (apply exec_keeps_autoMerge, Haccepted).
    rewrite Ham in Hexcl. cbn in Hexcl.
    apply localDataChannel_rejected; assumption.
  - intros _ _ Haccepted Hm2.
    apply autoMerge_rejected; [exact Hm2|].
    apply exec_keeps_localDataChannel, Haccepted.
Qed.

End IpcFacts.

Lemma autoMerge_excludes_localDataChannel_witness :
  Ipc.Rejected
    (Ipc.exec ["someClient"]
       (fst (Ipc.step ["someClient"] Ipc.listening
               (Ipc.Message Ipc.autoMergeMsg None)))
       [Ipc.Message Ipc.headLookupMsg (Some "lookup"); Ipc.SIGTERM])
    (Ipc.step ["someClient"]
       (Ipc.exec ["someClient"]
          (fst (Ipc.step ["someClient"] Ipc.listening
                  (Ipc.Message Ipc.autoMergeMsg None)))
          [Ipc.Message Ipc.headLookupMsg (Some "lookup"); Ipc.SIGTERM])
       (Ipc.Message Ipc.localDataChannelMsg (Some "local"))).
Proof.
  destruct (autoMerge_excludes_localDataChannel ["someClient"] []
              [Ipc.Message Ipc.headLookupMsg (Some "lookup"); Ipc.SIGTERM]
              Ipc.autoMergeMsg Ipc.localDataChannelMsg None (Some "local"))
    as (_ & _ & Hauto & _).
  apply Hauto; reflexivity.
Defined.

(** ** Signals *)

Section SignalFacts.
Import Ipc.
Variable pers : list string.

Lemma step_keeps_onceSIGTERM (s : State) (ev : Event) :
  ev ≠ SIGTERM → onceSIGTERM s = true →
  onceSIGTERM (fst (step pers s ev)) = true.
Proof.
  intros Hev Hs.
  destruct s as [hl ldc am cs sd om st si run];
    destruct ev as [[ty pe rbs] [c|]|c| | |[stats|e]];
    try contradiction;
    unfold step, handleIncomingMsg, headLookupConnHandler,
      localDataConnHandler, remoteDataConnHandler, shutdown; cbn in *;
    repeat match goal with
           | |- context [if ?b then _ else _] => destruct b
           end; exact Hs.
Qed.

Lemma step_keeps_onceSIGINT (s : State) (ev : Event) :
  ev ≠ SIGINT → onceSIGINT s = true →
  onceSIGINT (fst (step pers s ev)) = true.
Proof.
  intros Hev Hs.
  destruct s as [hl ldc am cs sd om st si run];
    destruct ev as [[ty pe rbs] [c|]|c| | |[stats|e]];
    try contradiction;
    unfold step, handleIncomingMsg, headLookupConnHandler,
      localDataConnHandler, remoteDataConnHandler, shutdown; cbn in *;
    repeat match goal with
           | |- context [if ?b then _ else _] => destruct b
           end; exact Hs.
Qed.

Lemma exec_keeps_onceSIGTERM (evs : list Event) (s : State) :
  SIGTERM ∉ evs → onceSIGTERM s = true →
  onceSIGTERM (exec pers s evs) = true.
Proof.
  revert s. induction evs as [|ev evs IH]; intros s Hnot Hs; [exact Hs|].
  apply not_elem_of_cons in Hnot as [Hev Hnot].
  apply IH; [exact Hnot|]. apply step_keeps_onceSIGTERM; congruence.
Qed.

Lemma exec_keeps_onceSIGINT (evs : list Event) (s : State) :
  SIGINT ∉ evs → onceSIGINT s = true →
  onceSIGINT (exec pers s evs) = true.
Proof.
  revert s. induction evs as [|ev evs IH]; intros s Hnot Hs; [exact Hs|].
  apply not_elem_of_cons in Hnot as [Hev Hnot].
  apply IH; [exact Hnot|]. apply step_keeps_onceSIGINT; congruence.
Qed.

(** C6, as stated, fails: the no-op listeners are registered with
    [process.once], so a second SIGTERM finds no listener and ends the
    child although no [kill] message was sent. *)
Lemma second_SIGTERM_ends_the_child :
  ¬ ∀ evs : list Event,
      Forall (λ ev, ev = SIGTERM ∨ ev = SIGINT) evs →
      running (exec [] listening evs) = true.
Proof.
  intros Hclaim. specialize (Hclaim [SIGTERM; SIGTERM]).
  cbn in Hclaim. discriminate Hclaim. repeat constructor.
Qed.

(** C6, amended: the first SIGTERM and the first SIGINT that a running
    child receives are ignored (nothing is done and the child keeps
    running); SIGUSR2 logs the statistics of the merge tree and of the
    connections, or the error of reading them, and leaves the state as it
    is; the parent's [kill] message starts the shutdown. *)
Theorem first_SIGTERM_and_SIGINT_are_ignored (evs : list Event) :
  let s := exec pers listening evs in
  running s = true →
  (SIGTERM ∉ evs →
     step pers s SIGTERM = (drop_onceSIGTERM s, [])
     ∧ running (drop_onceSIGTERM s) = true)
  ∧ (SIGINT ∉ evs →
     step pers s SIGINT = (drop_onceSIGINT s, [])
     ∧ running (drop_onceSIGINT s) = true)
  ∧ (∀ mtStats, step pers s (SIGUSR2 (Ok mtStats))
                = (s, [LogNotice mtStats (elements (connections s))]))
  ∧ (∀ e, step pers s (SIGUSR2 (Err e)) = (s, [LogErr e]))
  ∧ (∀ m c, msg_type m = "kill" → onMessage s = true →
            shuttingDown s = false →
            step pers s (Message m c)
            = (begin_shutdown s,
               (EndConn <$> elements (connections s))
                 ++ [CloseMergeTree; CloseDb])).
Proof.
  intros s Hrun. split; [|split; [|split; [|split]]].
  - intros Hfirst.
    pose proof (exec_keeps_onceSIGTERM evs listening Hfirst eq_refl)
      as Honce.
    fold s in Honce. unfold step. rewrite Hrun, Honce.
    split; [reflexivity|exact Hrun].
  - intros Hfirst.
    pose proof (exec_keeps_onceSIGINT evs listening Hfirst eq_refl)
      as Honce.
    fold s in Honce. unfold step. rewrite Hrun, Honce.
    split; [reflexivity|exact Hrun].
  - intros mtStats. unfold step. rewrite Hrun. reflexivity.
  - intros e. unfold step. rewrite Hrun. reflexivity.
  - intros [ty pe rbs] c Hty Hon Hsd. cbn in Hty. subst ty.
    unfold step, handleIncomingMsg, shutdown. rewrite Hrun, Hon, Hsd.
    reflexivity.
Qed.

End SignalFacts.

Lemma first_SIGTERM_and_SIGINT_are_ignored_witness :
  Ipc.step [] (Ipc.exec [] Ipc.listening [Ipc.SIGINT]) Ipc.SIGTERM
  = (Ipc.drop_onceSIGTERM (Ipc.exec [] Ipc.listening [Ipc.SIGINT]), []).
Proof.
  apply (first_SIGTERM_and_SIGINT_are_ignored [] [Ipc.SIGINT] eq_refl).
  intros Hin. apply elem_of_cons in Hin as [Hin|Hin]; [discriminate Hin|].
  apply elem_of_nil in Hin. exact Hin.
Defined.

(** ** Exit codes *)

Section StartupFacts.
Import Startup.

(** C5, as stated, fails: when the log cannot be opened the callback of
    [logger] rethrows the error; the child ends with an uncaught exception
    and not with exit code 2. *)
Lemma log_failure_is_not_exit_2 :
  ¬ ∀ e : Env,
      msgWellTyped e = true → loggerErr e = true → startup e = Exit 2.
Proof.
  intros Hclaim.
  specialize (Hclaim (mkEnv true true None true true true false
                        (StatFound true) false false true false)
                eq_refl eq_refl).
  discriminate Hclaim.
Qed.

(** Decide a statement about the outcome of [startup] by running through
    the outcomes of the steps, the early ones first. *)
Ltac by_outcomes e :=
  let wt := fresh "wt" in let le := fresh "le" in let hp := fresh "hp" in
  let pw := fresh "pw" in let gr := fresh "gr" in let rl := fresh "rl" in
  let mk := fresh "mk" in let st := fresh "st" in let md := fresh "md" in
  let ch := fresh "ch" in let cr := fresh "cr" in let lv := fresh "lv" in
  destruct e as [wt le hp pw gr rl mk st md ch cr lv];
  unfold startup, afterLogger, afterMkdirp, doChrootThenOpen,
    openDbAndProceed, reachedOpen, reachedChroot, reachedStat,
    reachedMkdirp, reachedUserLookup, reachedHooks;
  cbn [msgWellTyped loggerErr hookPaths getpwnamOk getgrnamOk setrlimitOk
       mkdirpErr stat mkdirErr chownErr chrootOk levelErr];
  destruct wt, le, hp as [[|]|], pw, gr, rl, mk;
  cbn; try (intuition congruence);
  destruct st as [| |[|]], md, ch, cr, lv; cbn; intuition congruence.

Lemma exit_2_iff (e : Env) :
  startup e = Exit 2 ↔ reachedHooks e ∧ hookPaths e = Some false.
Proof. by_outcomes e. Qed.

Lemma exit_3_iff (e : Env) :
  startup e = Exit 3 ↔
    (reachedUserLookup e ∧ (getpwnamOk e = false ∨ getgrnamOk e = false))
    ∨ (reachedMkdirp e ∧ mkdirpErr e = true).
Proof. by_outcomes e. Qed.

Lemma exit_4_iff (e : Env) :
  startup e = Exit 4 ↔ reachedStat e ∧ stat e = StatFailed.
Proof. by_outcomes e. Qed.

Lemma exit_5_iff (e : Env) :
  startup e = Exit 5 ↔
    reachedStat e ∧ stat e = StatENOENT ∧ mkdirErr e = true.
Proof. by_outcomes e. Qed.

Lemma exit_6_iff (e : Env) :
  startup e = Exit 6 ↔
    reachedStat e ∧ stat e = StatENOENT
    ∧ mkdirErr e = false ∧ chownErr e = true.
Proof. by_outcomes e. Qed.

Lemma exit_7_iff (e : Env) :
  startup e = Exit 7 ↔ reachedStat e ∧ stat e = StatFound false.
Proof. by_outcomes e. Qed.

Lemma exit_8_iff (e : Env) :
  startup e = Exit 8 ↔ reachedChroot e ∧ chrootOk e = false.
Proof. by_outcomes e. Qed.

Lemma exit_9_iff (e : Env) :
  startup e = Exit 9 ↔ reachedOpen e ∧ levelErr e = true.
Proof. by_outcomes e. Qed.

Lemma log_failure_throws (e : Env) :
  loggerErr e = true → startup e = Thrown.
Proof. by_outcomes e. Qed.

(** C5, amended: the db child exits with code 2 when the configured hooks
    cannot be loaded (a log that cannot be opened ends the child with an
    uncaught exception, not with an exit code of its own), with code 3
    when the user or group is unknown or the chroot directory cannot be
    made, with codes 4 to 7 when the data path cannot be examined, cannot
    be made, cannot be given to its owner or is not a directory, with
    code 8 when the chroot call fails and with code 9 when the store
    cannot be opened. *)
Theorem startup_exit_codes (e : Env) :
  (loggerErr e = true → startup e = Thrown)
  ∧ (startup e = Exit 2 ↔ reachedHooks e ∧ hookPaths e = Some false)
  ∧ (startup e = Exit 3 ↔
       (reachedUserLookup e
        ∧ (getpwnamOk e = false ∨ getgrnamOk e = false))
       ∨ (reachedMkdirp e ∧ mkdirpErr e = true))
  ∧ (startup e = Exit 4 ↔ reachedStat e ∧ stat e = StatFailed)
  ∧ (startup e = Exit 5 ↔
       reachedStat e ∧ stat e = StatENOENT ∧ mkdirErr e = true)
  ∧ (startup e = Exit 6 ↔
       reachedStat e ∧ stat e = StatENOENT
       ∧ mkdirErr e = false ∧ chownErr e = true)
  ∧ (startup e = Exit 7 ↔ reachedStat e ∧ stat e = StatFound false)
  ∧ (startup e = Exit 8 ↔ reachedChroot e ∧ chrootOk e = false)
  ∧ (startup e = Exit 9 ↔ reachedOpen e ∧ levelErr e = true).
Proof.
  split; [apply log_failure_throws|].
  split; [apply exit_2_iff|].
  split; [apply exit_3_iff|].
  split; [apply exit_4_iff|].
  split; [apply exit_5_iff|].
  split; [apply exit_6_iff|].
  split; [apply exit_7_iff|].
  split; [apply exit_8_iff|].
  apply exit_9_iff.
Qed.

Lemma startup_exit_codes_witness :
  startup (mkEnv true false (Some false) true true true false
             (StatFound true) false false true false) = Exit 2
  ∧ startup (mkEnv true true None true true true false
               (StatFound true) false false true false) = Thrown.
Proof.
  split.
  - apply (startup_exit_codes
             (mkEnv true false (Some false) true true true false
                (StatFound true) false false true false)).
    repeat split.
  - apply (startup_exit_codes
             (mkEnv true true None true true true false
                (StatFound true) false false true false)).
    reflexivity.
Defined.

End StartupFacts.

(** ** The oplog adapter *)

Section OplogFacts.
Import OplogTransform.
Variable applyModifier : doc → doc → doc.

Lemma transform_modifier (item : OplogItem) (ch : Channels) :
  op item = "u" →
  oplogUpdateContainsModifier item = true →
  transform applyModifier item ch
  = (item, fst (applyOplogUpdateModifier applyModifier item ch),
     snd (applyOplogUpdateModifier applyModifier item ch)).
Proof.
  intros Hop Hmod. unfold transform. rewrite Hop, Hmod. cbn.
  destruct (applyOplogUpdateModifier applyModifier item ch). reflexivity.
Qed.

(** C7: for an update by modifier the adapter appends exactly one lookup
    request, carrying the id of the record, to the request channel and
    takes one item from the response channel; when that item is the empty
    object it fails with [PreviousVersionNotFound] and emits no new
    version. *)
Theorem updateModifier_requests_previous_version
    (item : OplogItem) (ch : Channels) :
  op item = "u" →
  oplogUpdateContainsModifier item = true →
  reqChan (snd (fst (transform applyModifier item ch)))
    = reqChan ch ++ [mkLookup (sel ← o2 item; field "_id" sel)]
  ∧ (resChan ch = [] →
     snd (transform applyModifier item ch) = Waiting)
  ∧ (∀ head rest, resChan ch = head :: rest →
       resChan (snd (fst (transform applyModifier item ch))) = rest)
  ∧ (∀ rest, resChan ch = [] :: rest →
       snd (transform applyModifier item ch)
         = Failed PreviousVersionNotFound
       ∧ ∀ nv, snd (transform applyModifier item ch) ≠ Emitted nv).
Proof.
  intros Hop Hmod. rewrite (transform_modifier _ _ Hop Hmod).
  unfold applyOplogUpdateModifier. cbn [fst snd].
  destruct (resChan ch) as [|head rest]; cbn [fst snd reqChan resChan].
  - split; [reflexivity|]. split; [reflexivity|].
    split; intros; discriminate.
  - split; [reflexivity|]. split; [discriminate|].
    split.
    + intros head' rest' [= _ <-]. reflexivity.
    + intros rest' [= -> _]. split; [reflexivity|discriminate].
Qed.


End OplogFacts.

Lemma updateModifier_requests_previous_version_witness :
  let item :=
    OplogTransform.mkOplogItem (JTs 999 1) "test.coll" "u"
      [("$set", JObj [("bar", JStr "baz")])]
      (Some [("_id", JStr "foo"); ("_v", JStr "A")]) in
  let ch := OplogTransform.mkChannels [] [[]] in
  OplogTransform.reqChan
    (snd (fst (OplogTransform.transform (λ body _, body) item ch)))
  = [OplogTransform.mkLookup (Some (JStr "foo"))]
  ∧ snd (OplogTransform.transform (λ body _, body) item ch)
    = OplogTransform.Failed OplogTransform.PreviousVersionNotFound.
Proof.
  intros item ch.
  destruct (updateModifier_requests_previous_version (λ body _, body)
              item ch eq_refl eq_refl) as (Hreq & _ & _ & Hfail).
  split; [exact Hreq|]. apply (Hfail []). reflexivity.
Defined.

(** * Further properties of the db child *)

(** ** Runs of the control-message machine *)

Section TraceFacts.
Import Ipc Trace.
Variable pers : list string.

Ltac unfold_step :=
  unfold step, handleIncomingMsg, headLookupConnHandler,
    localDataConnHandler, remoteDataConnHandler, shutdown, connErrorHandler.

Ltac split_ifs :=
  repeat match goal with
         | |- context [if ?b then _ else _] => destruct b eqn:?
         end.

Ltac all_steps s ev :=
  destruct s as [hl ldc am cs sd om st si run];
  destruct ev as [[ty pe rbs] [c|]|c| | |[stats|e]];
  unfold_step; cbn -[elements count]; split_ifs; cbn -[elements count] in *.

Lemma count_app (p : Effect → bool) (xs ys : list Effect) :
  count p (xs ++ ys) = count p xs + count p ys.
Proof. unfold count. rewrite List.filter_app, length_app. reflexivity. Qed.

Lemma count_EndConn (p : Effect → bool) (cs : list ConnId) :
  (∀ c, p (EndConn c) = false) → count p (EndConn <$> cs) = 0.
Proof.
  intros Hp. unfold count. induction cs as [|c cs IH]; [reflexivity|].
  cbn. rewrite Hp. exact IH.
Qed.

Lemma step_writerBudget (s : State) (ev : Event) :
  count createsLocalWriter (snd (step pers s ev))
    + writerBudget (fst (step pers s ev)) ≤ writerBudget s.
Proof.
  all_steps s ev; unfold writerBudget;
    rewrite ?count_app, ?count_EndConn by reflexivity;
    cbn; try lia; destruct am, ldc; cbn in *; try discriminate; lia.
Qed.

Lemma step_mergeBudget (s : State) (ev : Event) :
  count startsMerge (snd (step pers s ev))
    + writerBudget (fst (step pers s ev)) ≤ writerBudget s.
Proof.
  all_steps s ev; unfold writerBudget;
    rewrite ?count_app, ?count_EndConn by reflexivity;
    cbn; try lia; destruct am, ldc; cbn in *; try discriminate; lia.
Qed.

Lemma effects_writerBudget (evs : list Event) (s : State) :
  count createsLocalWriter (effects pers s evs) ≤ writerBudget s
  ∧ count startsMerge (effects pers s evs) ≤ writerBudget s.
Proof.
  revert s. induction evs as [|ev evs IH]; intros s; cbn [effects].
  - unfold count. cbn. lia.
  - rewrite !count_app.
    pose proof (step_writerBudget s ev). pose proof (step_mergeBudget s ev).
    destruct (IH (fst (step pers s ev))). lia.
Qed.

(** X1: over every run from the listening state at most one local write
    stream is created and merging is started at most once, whatever mix of
    [autoMerge] and [localDataChannel] messages arrives. *)
Theorem at_most_one_local_write_stream (evs : list Event) :
  count createsLocalWriter (effects pers listening evs) ≤ 1
  ∧ count startsMerge (effects pers listening evs) ≤ 1.
Proof. apply (effects_writerBudget evs listening). Qed.

Lemma step_lookupBudget (s : State) (ev : Event) :
  count servesHeadLookup (snd (step pers s ev))
    + lookupBudget (fst (step pers s ev)) ≤ lookupBudget s.
Proof.
  all_steps s ev; unfold lookupBudget;
    rewrite ?count_app, ?count_EndConn by reflexivity;
    cbn; try lia; destruct hl; cbn in *; try discriminate; lia.
Qed.

(** X2: over every run from the listening state at most one head-lookup
    channel is ever served; the flag is never cleared, so the close of that
    channel does not make room for another. *)
Theorem at_most_one_head_lookup_channel (evs : list Event) :
  count servesHeadLookup (effects pers listening evs) ≤ 1.
Proof.
  change 1 with (lookupBudget listening). generalize listening.
  induction evs as [|ev evs IH]; intros s; cbn [effects].
  - unfold count. cbn. lia.
  - rewrite count_app. pose proof (step_lookupBudget s ev).
    specialize (IH (fst (step pers s ev))). lia.
Qed.

Lemma not_handed_EndConn (c : ConnId) (cs : list ConnId) (e : Effect) :
  e ∈ EndConn <$> cs → handsTo c e = false.
Proof. intros (c' & -> & _)%list_elem_of_fmap. reflexivity. Qed.

(** X3: a channel request that comes with a connection whose id is already
    registered never reaches a handler: the registry is left as it is and
    neither the head-lookup handler, nor a local write stream, nor the
    remote handler is started for it. *)
Theorem registered_connection_is_not_served_twice
    (s : State) (m : Msg) (c : ConnId) :
  c ∈ connections s →
  opensChannel m = true →
  connections (fst (step pers s (Message m (Some c)))) = connections s
  ∧ ∀ e, e ∈ snd (step pers s (Message m (Some c))) → handsTo c e = false.
Proof.
  intros Hreg Hopen.
  destruct s as [hl ldc am cs sd om st si run], m as [ty pe rbs].
  unfold opensChannel in Hopen. cbn in Hreg, Hopen.
  assert (Hty : ty = "headLookup" ∨ ty = "localDataChannel"
                ∨ ty = "remoteDataChannel").
  { destruct (String.eqb_spec ty "headLookup"); [tauto|].
    destruct (String.eqb_spec ty "localDataChannel"); [tauto|].
    destruct (String.eqb_spec ty "remoteDataChannel"); [tauto|].
    discriminate Hopen. }
  unfold_step.
  destruct Hty as [ -> | [ -> | -> ] ]; cbn -[elements];
    rewrite ?(bool_decide_eq_true_2 _ Hreg);
    split_ifs; cbn -[elements] in *;
    (split; [reflexivity|]);
    intros e He;
    repeat (apply elem_of_cons in He as [->|He]; [reflexivity|]);
    apply elem_of_nil in He; contradiction.
Qed.







Lemma step_registry_sound (s : State) (ev : Event) :
  connections (fst (step pers s ev))
    ⊆ connections s ∪ list_to_set (handedOver ev).
Proof.
  all_steps s ev; set_solver.
Qed.

(** X6: every connection in the registry was handed over with an earlier
    control message of the run; the child registers nothing of its own. *)
Theorem registry_holds_only_handed_over_connections
    (evs : list Event) (c : ConnId) :
  c ∈ connections (exec pers listening evs) →
  c ∈ concat (handedOver <$> evs).
Proof.
  assert (Hgen : ∀ s, connections (exec pers s evs)
                      ⊆ connections s
                        ∪ list_to_set (concat (handedOver <$> evs))).
  { induction evs as [|ev evs IH]; intros s; [set_solver|].
    cbn [exec fold_left fmap list_fmap concat].
    pose proof (step_registry_sound s ev) as Hstep.
    pose proof (IH (fst (step pers s ev))) as Hrest.
    unfold exec in Hrest. rewrite list_to_set_app_L. set_solver. }
  intros Hc. apply Hgen in Hc. cbn in Hc. set_solver.
Qed.

End TraceFacts.

Lemma registered_connection_is_not_served_twice_witness :
  Ipc.connections
    (fst (Ipc.step ["someClient"]
            (fst (Ipc.step ["someClient"] Ipc.listening
                    (Ipc.Message Ipc.headLookupMsg (Some "a"))))
            (Ipc.Message (Ipc.mkMsg "remoteDataChannel" "someClient" false)
               (Some "a"))))
  = Ipc.connections
      (fst (Ipc.step ["someClient"] Ipc.listening
              (Ipc.Message Ipc.headLookupMsg (Some "a")))).
Proof.
  apply (registered_connection_is_not_served_twice ["someClient"]
           (fst (Ipc.step ["someClient"] Ipc.listening
                   (Ipc.Message Ipc.headLookupMsg (Some "a"))))
           (Ipc.mkMsg "remoteDataChannel" "someClient" false) "a").
  - vm_compute. set_solver.
  - reflexivity.
Defined.



Lemma registry_holds_only_handed_over_connections_witness :
  "a" ∈ concat (Trace.handedOver <$>
                  [Ipc.Message Ipc.headLookupMsg (Some "a"); Ipc.SIGUSR2 (Err "x")]).
Proof.
  apply (registry_holds_only_handed_over_connections []).
  vm_compute. set_solver.
Defined.

(** ** More on the lookup by id and on start-up *)

Section LookupFacts.
Import Tree HeadLookup.



End LookupFacts.

Section StartupMore.
Import Startup.

Ltac run_through e :=
  let wt := fresh "wt" in let le := fresh "le" in let hp := fresh "hp" in
  let pw := fresh "pw" in let gr := fresh "gr" in let rl := fresh "rl" in
  let mk := fresh "mk" in let st := fresh "st" in let md := fresh "md" in
  let ch := fresh "ch" in let cr := fresh "cr" in let lv := fresh "lv" in
  destruct e as [wt le hp pw gr rl mk st md ch cr lv];
  unfold startup, afterLogger, afterMkdirp, doChrootThenOpen,
    openDbAndProceed, reachedOpen, reachedChroot, reachedStat,
    reachedMkdirp, reachedUserLookup, reachedHooks;
  cbn [msgWellTyped loggerErr hookPaths getpwnamOk getgrnamOk setrlimitOk
       mkdirpErr stat mkdirErr chownErr chrootOk levelErr];
  destruct wt, le, hp as [[|]|], pw, gr, rl, mk;
  cbn; try (intuition (try congruence; try lia));
  destruct st as [| |[|]], md, ch, cr, lv; cbn;
  intuition (try congruence; try lia).

Lemma startup_listens_iff (e : Env) :
  startup e = PostChroot ↔ reachedOpen e ∧ levelErr e = false.
Proof. run_through e. Qed.

Lemma startup_exit_range (e : Env) (code : nat) :
  startup e = Exit code → 2 ≤ code ≤ 9.
Proof.
  run_through e;
    match goal with
    | H : Exit _ = Exit _ |- _ => injection H as <-; lia
    end.
Qed.

(** X8: the child goes on to [postChroot], where it sends ["listen"], if
    and only if every step of the start-up sequence succeeded; in
    particular the store is opened only after the change of root and user
    succeeded and the data path is a directory. Every exit code of the
    sequence lies between 2 and 9. *)
Theorem startup_listens_only_after_chroot (e : Env) :
  (startup e = PostChroot ↔ reachedOpen e ∧ levelErr e = false)
  ∧ (startup e = PostChroot →
     chrootOk e = true ∧ loggerErr e = false ∧ mkdirpErr e = false
     ∧ (stat e = StatFound true
        ∨ (stat e = StatENOENT ∧ mkdirErr e = false ∧ chownErr e = false)))
  ∧ (∀ code, startup e = Exit code → 2 ≤ code ≤ 9).
Proof.
  split; [apply startup_listens_iff|]. split.
  - intros Hok. apply startup_listens_iff in Hok.
    unfold reachedOpen, reachedChroot, reachedStat, reachedMkdirp,
      reachedUserLookup, reachedHooks in Hok. tauto.
  - intros code. apply startup_exit_range.
Qed.

End StartupMore.

Lemma startup_listens_only_after_chroot_witness :
  Startup.startup
    (Startup.mkEnv true false None true true true false
       Startup.StatENOENT false false true false) = Startup.PostChroot.
Proof.
  apply (startup_listens_only_after_chroot
           (Startup.mkEnv true false None true true true false
              Startup.StatENOENT false false true false)).
  unfold Startup.reachedOpen, Startup.reachedChroot, Startup.reachedStat,
    Startup.reachedMkdirp, Startup.reachedUserLookup, Startup.reachedHooks.
  cbn. intuition congruence.
Defined.

(** ** Loading hooks from directories *)

Section HookFileFacts.
Import HookFiles.

Lemma length_substring (s : string) (n m : nat) :
  String.length (String.substring n m s) = min m (String.length s - n).
Proof.
  revert n m. induction s as [|a s IH]; intros [|n] [|m]; cbn;
    try reflexivity; rewrite ?IH; try reflexivity.
  rewrite Nat.sub_0_r. reflexivity.
Qed.

Lemma length_append (s1 s2 : string) :
  String.length (s1 +:+ s2) = String.length s1 + String.length s2.
Proof.
  induction s1 as [|a s1 IH]; [reflexivity|].
  change (S (String.length (s1 +:+ s2))
          = S (String.length s1) + String.length s2).
  rewrite IH. reflexivity.
Qed.

(** X9: a directory entry passes the test for hook files exactly when it
    is two characters long, or when it ends in [.js] and holds no earlier
    [.js]. (For a name of two characters [indexOf] is -1 and so is the
    length less three.) *)
Theorem isJsFileName_iff (file : string) :
  isJsFileName file = true ↔
    String.length file = 2
    ∨ (3 ≤ String.length file
       ∧ String.substring (String.length file - 3) 3 file = ".js"
       ∧ ∀ p, p < String.length file - 3 →
              String.substring p 3 file ≠ ".js").
Proof.
  unfold isJsFileName, indexOf. rewrite Z.eqb_eq.
  destruct (String.index 0 ".js" file) as [m|] eqn:Hidx.
  - pose proof (String.index_correct1 _ _ _ _ Hidx) as Hat.
    pose proof (String.index_correct2 _ _ _ _ Hidx) as Hbefore.
    cbn [String.length] in Hat, Hbefore.
    assert (Hfits : m + 3 ≤ String.length file).
    { pose proof (f_equal String.length Hat) as Hlen.
      rewrite length_substring in Hlen.
      change (String.length ".js") with 3 in Hlen. lia. }
    split.
    + intros Heq. right. assert (m = String.length file - 3) as -> by lia.
      split; [lia|]. split; [exact Hat|].
      intros p Hp. apply Hbefore; lia.
    + intros [Htwo|(Hlen & Hend & Hfirst)]; [lia|].
      destruct (Nat.lt_trichotomy m (String.length file - 3))
        as [Hlt|[->|Hgt]].
      * destruct (Hfirst m Hlt Hat).
      * lia.
      * destruct (Hbefore (String.length file - 3)); [lia|exact Hgt|exact Hend].
  - pose proof (String.index_correct3 0 (String.length file - 3) _ _ Hidx)
      as Hnone.
    cbn [String.length] in Hnone.
    split.
    + intros Heq. left. lia.
    + intros [Htwo|(Hlen & Hend & _)]; [lia|].
      destruct Hnone; [discriminate|lia|exact Hend].
Qed.

Lemma lastChar_append_slash (dir : string) :
  lastChar (dir +:+ "/") = Some "/"%char.
Proof.
  unfold lastChar. rewrite length_append. cbn [String.length].
  rewrite Nat.add_1_r.
  change (String.get (0 + String.length dir) (dir +:+ "/") = Some "/"%char).
  rewrite <- (String.append_correct2 dir "/" 0). reflexivity.
Qed.

(** X10: the directory name that is read always ends in a slash: a name
    that ends in one is taken as it is, any other name gets one appended
    (the empty name thereby becomes [/]), and doing it twice changes
    nothing more. *)
Theorem ensureTrailingSlash_ends_in_slash (dir : string) :
  lastChar (ensureTrailingSlash dir) = Some "/"%char
  ∧ (lastChar dir = Some "/"%char → ensureTrailingSlash dir = dir)
  ∧ (lastChar dir ≠ Some "/"%char → ensureTrailingSlash dir = dir +:+ "/")
  ∧ ensureTrailingSlash (ensureTrailingSlash dir) = ensureTrailingSlash dir.
Proof.
  assert (Hcases : (lastChar dir = Some "/"%char
                    ∧ ensureTrailingSlash dir = dir)
                   ∨ (lastChar dir ≠ Some "/"%char
                      ∧ ensureTrailingSlash dir = dir +:+ "/")).
  { unfold ensureTrailingSlash. destruct (lastChar dir) as [c|].
    - destruct (Ascii.eqb_spec c "/"%char) as [->|Hne].
      + left. split; reflexivity.
      + right. split; [congruence|reflexivity].
    - right. split; [discriminate|reflexivity]. }
  destruct Hcases as [[Hlast Heq]|[Hlast Heq]]; rewrite !Heq.
  - split; [exact Hlast|]. split; [reflexivity|].
    split; [contradiction|reflexivity].
  - split; [apply lastChar_append_slash|].
    split; [contradiction|]. split; [reflexivity|].
    unfold ensureTrailingSlash. rewrite lastChar_append_slash.
    reflexivity.
Qed.

Section LoaderFacts.
Context {Mod : Type}.
Variable readdirSync : string → Result (list string).
Variable statIsFile : string → Result bool.
Variable requireModule : string → Result Mod.

Lemma loadFiles_sound (dirs : list string) (dir : string)
    (all files : list string) (result result' : gmap string Mod) :
  dir ∈ dirs →
  readdirSync (ensureTrailingSlash dir) = Ok all →
  (∀ file, file ∈ files → file ∈ all) →
  (∀ name m, result !! name = Some m → LoadedFrom readdirSync statIsFile requireModule dirs name m) →
  loadFiles statIsFile requireModule (ensureTrailingSlash dir) files result
    = Ok result' →
  ∀ name m, result' !! name = Some m → LoadedFrom readdirSync statIsFile requireModule dirs name m.
Proof.
  intros Hdir Hread. revert result.
  induction files as [|file files IH]; intros result Hsub Hres; cbn.
  - intros [= <-]. exact Hres.
  - unfold loadFile.
    destruct (isJsFileName file) eqn:Hjs; [|apply IH; auto; set_solver].
    destruct (statIsFile _) as [[|]|e] eqn:Hstat; try discriminate;
      [|apply IH; auto; set_solver].
    destruct (requireModule _) as [m0|e] eqn:Hreq; [|discriminate].
    apply IH; [set_solver|].
    intros name m. unfold setHook.
    destruct (String.eqb _ "__proto__"); [apply Hres|].
    destruct (decide (basenameJs file = name)) as [<-|Hne].
    + rewrite lookup_insert_eq. intros [= <-].
      exists dir, all, file. repeat split; auto. apply Hsub. left.
    + rewrite lookup_insert_ne by exact Hne. apply Hres.
Qed.

Lemma loadDirs_sound (dirs rest : list string)
    (result result' : gmap string Mod) :
  (∀ dir, dir ∈ rest → dir ∈ dirs) →
  (∀ name m, result !! name = Some m → LoadedFrom readdirSync statIsFile requireModule dirs name m) →
  loadDirs readdirSync statIsFile requireModule rest result = Ok result' →
  ∀ name m, result' !! name = Some m → LoadedFrom readdirSync statIsFile requireModule dirs name m.
Proof.
  revert result. induction rest as [|dir rest IH]; intros result Hsub Hres;
    cbn.
  - intros [= <-]. exact Hres.
  - unfold loadDir.
    destruct (readdirSync _) as [files|e] eqn:Hread; [|discriminate].
    destruct (loadFiles _ _ _ _ _) as [mid|e] eqn:Hfiles; [|discriminate].
    apply IH; [set_solver|].
    apply (loadFiles_sound dirs dir files files result mid);
      auto. apply Hsub. left.
Qed.

Lemma loadDirs_unreadable (dirs : list string) (dir e : string)
    (result : gmap string Mod) :
  dir ∈ dirs →
  readdirSync (ensureTrailingSlash dir) = Err e →
  ∃ e', loadDirs readdirSync statIsFile requireModule dirs result = Err e'.
Proof.
  intros Hdir Hread. revert result.
  induction dirs as [|d dirs IH]; intros result; [inversion Hdir|].
  cbn. unfold loadDir.
  apply elem_of_cons in Hdir as [<-|Hdir].
  - rewrite Hread. eauto.
  - destruct (readdirSync (ensureTrailingSlash d)) as [files|e1]; [|eauto].
    destruct (loadFiles statIsFile requireModule (ensureTrailingSlash d)
                files result) as [mid|e2]; [|eauto].
    apply IH, Hdir.
Qed.

(** X11: every hook in the table that [requireJsFromDirsSync] returns was
    loaded from a regular file that passes the name test in one of the
    listed directories, under that file's name without its [.js]; and when
    one of the listed directories cannot be read the call throws and no
    table is returned. *)
Theorem requireJsFromDirsSync_sound (dirs : list string) :
  (∀ table name m,
     requireJsFromDirsSync readdirSync statIsFile requireModule dirs
       = Ok table →
     table !! name = Some m →
     LoadedFrom readdirSync statIsFile requireModule dirs name m)
  ∧ (∀ dir e,
       dir ∈ dirs →
       readdirSync (ensureTrailingSlash dir) = Err e →
       ∃ e', requireJsFromDirsSync readdirSync statIsFile requireModule
               dirs = Err e').
Proof.
  split.
  - intros table name m Hload. revert name m.
    apply (loadDirs_sound dirs dirs ∅ table); auto.
    intros name m Hm. rewrite lookup_empty in Hm. discriminate Hm.
  - intros dir e Hdir Hread. apply (loadDirs_unreadable dirs dir e ∅ Hdir Hread).
Qed.

End LoaderFacts.

End HookFileFacts.

(** ** Hooks of a perspective *)

Section HooksFacts.
Import Hooks.
Context {Mod : Type}.



Lemma getKey_delKey {A : Type} (k j : string) (o : list (string * A)) :
  getKey k (delKey j o) = if String.eqb j k then None else getKey k o.
Proof.
  unfold delKey. induction o as [|[k' v] o IH]; cbn.
  - destruct (String.eqb j k); reflexivity.
  - destruct (String.eqb_spec k' j) as [->|Hne]; cbn.
    + rewrite IH. destruct (String.eqb_spec j k); reflexivity.
    + rewrite IH. destruct (String.eqb_spec k' k) as [->|Hk]; [|reflexivity].
      destruct (String.eqb_spec j k); [congruence|reflexivity].
Qed.

Lemma getKey_hidden (ks : list string) (k : string) (item : doc) :
  getKey k (fold_left (λ it j, delKey j it) ks item)
  = if bool_decide (k ∈ ks) then None else getKey k item.
Proof.
  revert item. induction ks as [|j ks IH]; intros item; cbn [fold_left].
  - reflexivity.
  - rewrite IH, getKey_delKey.
    destruct (String.eqb_spec j k) as [->|Hne].
    + rewrite (bool_decide_eq_true_2 (k ∈ k :: ks)) by left.
      destruct (bool_decide (k ∈ ks)); reflexivity.
    + destruct (bool_decide (k ∈ ks)) eqn:Hin.
      * apply bool_decide_eq_true in Hin.
        rewrite (bool_decide_eq_true_2 (k ∈ j :: ks)) by (right; exact Hin).
        reflexivity.
      * apply bool_decide_eq_false in Hin.
        rewrite (bool_decide_eq_false_2 (k ∈ j :: ks)); [reflexivity|].
        intros [->|Hk]%elem_of_cons; contradiction.
Qed.

Lemma delKey_comm {A : Type} (j k : string) (o : list (string * A)) :
  delKey j (delKey k o) = delKey k (delKey j o).
Proof.
  unfold delKey. induction o as [|[k' v] o IH]; cbn; [reflexivity|].
  destruct (String.eqb k' k) eqn:Hk, (String.eqb k' j) eqn:Hj; cbn;
    rewrite ?Hk, ?Hj; cbn; rewrite IH; reflexivity.
Qed.

Lemma delKey_idem {A : Type} (k : string) (o : list (string * A)) :
  delKey k (delKey k o) = delKey k o.
Proof.
  unfold delKey. induction o as [|[k' v] o IH]; cbn; [reflexivity|].
  destruct (String.eqb k' k) eqn:Hk; cbn; rewrite ?Hk; cbn; rewrite IH;
    reflexivity.
Qed.

Lemma hide_delKey (ks : list string) (k : string) (item : doc) :
  fold_left (λ it j, delKey j it) ks (delKey k item)
  = delKey k (fold_left (λ it j, delKey j it) ks item).
Proof.
  revert item. induction ks as [|j ks IH]; intros item; cbn [fold_left];
    [reflexivity|].
  rewrite delKey_comm. apply IH.
Qed.

Lemma hide_twice (ks js : list string) (item : doc) :
  (∀ k, k ∈ ks → k ∈ js) →
  fold_left (λ it j, delKey j it) ks
    (fold_left (λ it j, delKey j it) js item)
  = fold_left (λ it j, delKey j it) js item.
Proof.
  revert item. induction ks as [|k ks IH]; intros item Hsub;
    cbn [fold_left]; [reflexivity|].
  assert (Hk : delKey k (fold_left (λ it j, delKey j it) js item)
               = fold_left (λ it j, delKey j it) js item).
  { assert (Hin : k ∈ js) by (apply Hsub; left).
    clear IH Hsub. revert item.
    induction js as [|j js IHj]; intros item; [inversion Hin|].
    cbn [fold_left]. apply elem_of_cons in Hin as [->|Hin].
    - rewrite <- hide_delKey, delKey_idem. reflexivity.
    - apply IHj, Hin. }
  rewrite Hk. apply IH. intros k' Hk'. apply Hsub. right. exact Hk'.
Qed.

(** X13: the hook that hides keys leaves an item without any of the listed
    top-level keys and with every other key as it was; running it a second
    time changes nothing; and a [hide] that is not a list makes the hook
    fail when it runs. *)
Theorem runHide_removes_listed_keys (ks : list string) (item : doc) :
  ∃ item',
    runHide (OKeys ks) item = Ok item'
    ∧ (∀ k, k ∈ ks → getKey k item' = None)
    ∧ (∀ k, k ∉ ks → getKey k item' = getKey k item)
    ∧ runHide (OKeys ks) item' = Ok item'
    ∧ ∀ v, ∃ e, runHide (OJson v) item = Err e.
Proof.
  eexists. split; [reflexivity|]. split; [|split; [|split]].
  - intros k Hk. rewrite getKey_hidden, (bool_decide_eq_true_2 _ Hk).
    reflexivity.
  - intros k Hk. rewrite getKey_hidden, (bool_decide_eq_false_2 _ Hk).
    reflexivity.
  - cbn. f_equal. apply hide_twice. auto.
  - intros v. eexists. reflexivity.
Qed.

Lemma getKey_setKey {A : Type} (k j : string) (v : A)
    (o : list (string * A)) :
  getKey k (setKey j v o) = if String.eqb j k then Some v else getKey k o.
Proof.
  induction o as [|[k' v'] o IH]; cbn.
  - reflexivity.
  - destruct (String.eqb_spec k' j) as [->|Hne]; cbn.
    + destruct (String.eqb j k); reflexivity.
    + rewrite IH. destruct (String.eqb_spec k' k) as [->|Hk]; [|reflexivity].
      destruct (String.eqb_spec j k); [congruence|reflexivity].
Qed.

Lemma getKey_Some_of_elem {A : Type} (k : string) (v : A)
    (o : list (string * A)) :
  (k, v) ∈ o → is_Some (getKey k o).
Proof.
  induction o as [|[k' v'] o IH]; [inversion 1|].
  intros [[= <- <-]|Hin]%elem_of_cons; cbn.
  - rewrite String.eqb_refl. eauto.
  - destruct (String.eqb k' k); eauto.
Qed.

Lemma getKey_None_not_elem {A : Type} (k : string) (o : list (string * A)) :
  getKey k o = None → ∀ v, (k, v) ∉ o.
Proof.
  intros Hnone v Hin. apply getKey_Some_of_elem in Hin as [v' Hv'].
  congruence.
Qed.

(** The copying loop of [createHooksOpts] over a part of the keys. *)
Lemma copy_keys (src part : Obj) (acc : Obj) (k : string) :
  (∀ kv, kv ∈ part → kv ∈ src) →
  getKey k
    (fold_left
       (λ hooksOpts kv,
          if bool_decide (fst kv ∈ reserved) then hooksOpts
          else setKey (fst kv) (default (snd kv) (getKey (fst kv) src))
                 hooksOpts)
       part acc)
  = if bool_decide (k ∈ reserved) then getKey k acc
    else if bool_decide (k ∈ part.*1) then getKey k src
    else getKey k acc.
Proof.
  revert acc. induction part as [|[j v] part IH]; intros acc Hsub;
    cbn [fold_left fmap list_fmap fst snd].
  - destruct (bool_decide (k ∈ reserved)); reflexivity.
  - rewrite IH by (intros kv Hkv; apply Hsub; right; exact Hkv).
    destruct (bool_decide (k ∈ reserved)) eqn:Hres.
    + destruct (bool_decide (j ∈ reserved)) eqn:Hj; [reflexivity|].
      rewrite getKey_setKey. destruct (String.eqb_spec j k) as [->|Hne];
        [congruence|reflexivity].
    + destruct (bool_decide (k ∈ part.*1)) eqn:Hin.
      * apply bool_decide_eq_true in Hin.
        rewrite (bool_decide_eq_true_2 (k ∈ j :: part.*1))
          by (right; exact Hin).
        reflexivity.
      * apply bool_decide_eq_false in Hin.
        destruct (String.eqb_spec j k) as [->|Hne].
        -- rewrite (bool_decide_eq_true_2 (k ∈ k :: part.*1)) by left.
           rewrite Hres, getKey_setKey, String.eqb_refl.
           destruct (getKey_Some_of_elem k v src) as [v' Hv'];
             [apply Hsub; left|].
           rewrite Hv'. reflexivity.
        -- rewrite (bool_decide_eq_false_2 (k ∈ j :: part.*1)).
           2:{ intros [->|Hk]%elem_of_cons; contradiction. }
           destruct (bool_decide (j ∈ reserved)); [reflexivity|].
           rewrite getKey_setKey.
           destruct (String.eqb_spec j k); [contradiction|reflexivity].
Qed.

Lemma createHooksOpts_getKey (cfg : HooksOpts) (k : string) :
  getKey k (createHooksOpts cfg)
  = if bool_decide (k ∈ reserved) then getKey k (default [] (nested cfg))
    else match getKey k (own cfg) with
         | Some v => Some v
         | None => getKey k (default [] (nested cfg))
         end.
Proof.
  unfold createHooksOpts. rewrite copy_keys by auto.
  destruct (bool_decide (k ∈ reserved)); [reflexivity|].
  destruct (bool_decide (k ∈ (own cfg).*1)) eqn:Hin.
  - apply bool_decide_eq_true in Hin.
    apply list_elem_of_fmap in Hin as ([k' v] & -> & Hkv).
    destruct (getKey_Some_of_elem _ _ _ Hkv) as [v' Hv']. cbn.
    rewrite Hv'. reflexivity.
  - apply bool_decide_eq_false in Hin.
    destruct (getKey k (own cfg)) as [v|] eqn:Hk; [|reflexivity].
    exfalso. apply Hin. clear Hin.
    induction (own cfg) as [|[k' v'] o IH]; [discriminate Hk|].
    cbn in Hk |- *. destruct (String.eqb_spec k' k) as [->|Hne].
    + left.
    + right. apply IH, Hk.
Qed.

Lemma replaceHookNames_shape (table : gmap string Mod)
    (names : list string) (hs : list (Hook Mod)) :
  replaceHookNames table names = Ok hs →
  length hs = length names ∧ ∀ v, Hide v ∉ hs.
Proof.
  revert hs. induction names as [|n names IH]; cbn; intros hs.
  - intros [= <-]. split; [reflexivity|]. intros v Hin. inversion Hin.
  - destruct (lookupHook table n) as [h|] eqn:Hn; [|discriminate].
    destruct (replaceHookNames table names) as [hs'|e]; [|discriminate].
    intros [= <-]. destruct (IH hs' eq_refl) as [Hlen Hno].
    split; [cbn; congruence|].
    intros v [Heq|Hin]%elem_of_cons; [|apply (Hno v Hin)].
    subst h. unfold lookupHook in Hn.
    destruct (table !! n); [discriminate|].
    destruct (bool_decide _); discriminate.
Qed.

(** X15: after [postChroot] has gone over one direction of a perspective,
    a key-hiding hook is among its hooks exactly when the direction lists
    hooks and its [hooksOpts] has a truthy [hide]; it then is the last of
    the hooks, after one hook for every listed name, and the options
    handed to the hooks no longer carry that [hide]. A direction without a
    list of hooks is left as it is, its [hide] without effect. *)
Theorem prepareDirection_hide_hook (table : gmap string Mod)
    (d : Direction) (p : Prepared Mod) :
  prepareDirection table d = Ok p →
  (∀ v, (∃ hs, p_hooks p = Some hs ∧ Hide v ∈ hs) ↔
        (is_Some (hooks d)
         ∧ ∃ ho, hooksOpts d = Some ho
                 ∧ getKey "hide" (own ho) = Some v
                 ∧ optTruthy v = true))
  ∧ (hooks d = None →
     p_hooks p = None ∧ p_hooksOpts p = Untouched <$> hooksOpts d)
  ∧ (∀ names ho v,
       hooks d = Some names → hooksOpts d = Some ho →
       getKey "hide" (own ho) = Some v → optTruthy v = true →
       ∃ hs, length hs = length names
             ∧ p_hooks p = Some (hs ++ [Hide v])
             ∧ ∃ o, p_hooksOpts p = Some (Flattened o)
                    ∧ getKey "hide" o
                      = getKey "hide" (default [] (nested ho))).
Proof.
  unfold prepareDirection.
  destruct (hooks d) as [names|] eqn:Hhooks.
  - destruct (replaceHookNames table names) as [hs|e] eqn:Hrep;
      [|discriminate].
    destruct (replaceHookNames_shape _ _ _ Hrep) as [Hlen Hno].
    destruct (hooksOpts d) as [ho|] eqn:Hopts; intros [= <-];
      cbn [p_hooks p_hooksOpts].
    + unfold ensureHideHook.
      split; [|split; [discriminate|]].
      * intros v. split.
        -- intros (hs' & [= <-] & Hin). split; [eauto|].
           exists ho. split; [reflexivity|].
           destruct (getKey "hide" (own ho)) as [w|];
             [|destruct (Hno v Hin)].
           destruct (optTruthy w) eqn:Hw; [|destruct (Hno v Hin)].
           apply elem_of_app in Hin as [Hin|Hin]; [destruct (Hno v Hin)|].
           apply elem_of_cons in Hin as [[= ->]|Hin]; [auto|inversion Hin].
        -- intros (_ & ho' & [= <-] & Hhide & Hv).
           rewrite Hhide, Hv. eexists. split; [reflexivity|].
           apply elem_of_app. right. left.
      * intros names' ho' v [= <-] [= <-] Hhide Hv.
        rewrite Hhide, Hv. exists hs. split; [exact Hlen|].
        split; [reflexivity|]. eexists. split; [reflexivity|].
        rewrite createHooksOpts_getKey. reflexivity.
    + split; [|split; [discriminate|]].
      * intros v. split.
        -- intros (hs' & [= <-] & Hin). destruct (Hno v Hin).
        -- intros (_ & ho & Hho & _). discriminate Hho.
      * intros names' ho v _ Hho. discriminate Hho.
  - intros [= <-]. cbn [p_hooks p_hooksOpts].
    split; [|split; [auto|discriminate]].
    intros v. split.
    + intros (hs & Hhs & _). discriminate Hhs.
    + intros ([names Hn] & _). discriminate Hn.
Qed.

(** X14: in the options that [createHooksOpts] hands to the hooks, a key
    that is not reserved has the value the configuration gives it, or else
    the value of the nested [hooksOpts] object; the reserved keys
    [filter], [hooks], [hooksOpts] and [hide] are never copied: they are
    there only if the nested object brought them. *)
Theorem createHooksOpts_lookup (cfg : HooksOpts) (k : string) :
  getKey k (createHooksOpts cfg)
  = if bool_decide (k ∈ reserved) then getKey k (default [] (nested cfg))
    else match getKey k (own cfg) with
         | Some v => Some v
         | None => getKey k (default [] (nested cfg))
         end.
Proof. apply createHooksOpts_getKey. Qed.

End HooksFacts.


(** ** The logger *)

Section LoggerFacts.
Import Logger.

Lemma arrayIndexOf_lookup (x : string) (l : list string) (i : nat) :
  arrayIndexOf x l = Some i → l !! i = Some x.
Proof.
  revert i. induction l as [|y l IH]; intros i; cbn; [discriminate|].
  destruct (String.eqb_spec y x) as [->|Hne].
  - intros [= <-]. reflexivity.
  - destruct (arrayIndexOf x l) as [j|]; [|discriminate].
    intros [= <-]. cbn. apply IH. reflexivity.
Qed.

Lemma lookup_arrayIndexOf (x : string) (l : list string) (i : nat) :
  NoDup l → l !! i = Some x → arrayIndexOf x l = Some i.
Proof.
  intros Hnd. revert i. induction Hnd as [|y l Hy Hnd IH]; intros i;
    [discriminate|].
  destruct i as [|i]; cbn.
  - intros [= ->]. rewrite String.eqb_refl. reflexivity.
  - intros Hi. destruct (String.eqb_spec y x) as [->|Hne].
    + destruct Hy. apply list_elem_of_lookup. eauto.
    + rewrite (IH i Hi). reflexivity.
Qed.

Lemma PRIOS_NoDup : NoDup PRIOS.
Proof.
  unfold PRIOS.
  repeat (constructor;
          [intros H;
           repeat (apply elem_of_cons in H as [H|H]; [discriminate H|]);
           apply elem_of_nil in H; exact H|]).
  constructor.
Qed.

Lemma toUpperCase_PRIOS (i : nat) (p : string) :
  PRIOS !! i = Some p → toUpperCase p = p.
Proof.
  do 9 (destruct i as [|i]; [intros [= <-]; reflexivity|]). discriminate.
Qed.

(** X17: for a level name in ASCII, [levelToPrio] answers the position of
    the upper-cased name among the nine priority names, a number from 0
    to 8, and [null] for every other name, the empty one included; each
    priority name is mapped back to its own number. *)
Theorem levelToPrio_iff (name : string) (i : nat) :
  isAsciiText name →
  (levelToPrio (Some name) = Some i ↔ PRIOS !! i = Some (toUpperCase name))
  ∧ (levelToPrio (Some name) = Some i → i ≤ 8)
  ∧ (∀ p, PRIOS !! i = Some p → levelToPrio (Some p) = Some i).
Proof.
  intros _.
  assert (Hiff : levelToPrio (Some name) = Some i
                 ↔ PRIOS !! i = Some (toUpperCase name)).
  { unfold levelToPrio. cbn [truthy default from_option id].
    destruct (String.eqb_spec name EmptyString) as [->|Hne]; cbn [negb].
    - split; [discriminate|]. intros Hi.
      do 9 (destruct i as [|i]; [discriminate Hi|]). discriminate Hi.
    - split; [apply arrayIndexOf_lookup|].
      apply lookup_arrayIndexOf, PRIOS_NoDup. }
  split; [exact Hiff|]. split.
  - intros Hi. apply Hiff in Hi. apply lookup_lt_Some in Hi. cbn in Hi. lia.
  - intros p Hp. unfold levelToPrio.
    assert (Hne : p ≠ EmptyString).
    { intros ->. do 9 (destruct i as [|i]; [discriminate Hp|]).
      discriminate Hp. }
    cbn [truthy default from_option id].
    destruct (String.eqb_spec p EmptyString); [contradiction|]. cbn [negb].
    rewrite (toUpperCase_PRIOS i p Hp).
    apply lookup_arrayIndexOf; [apply PRIOS_NoDup|exact Hp].
Qed.

Ltac in_list H :=
  repeat (apply elem_of_app in H as [H|H]);
  repeat match type of H with
         | _ ∈ (if ?b then _ else _) => destruct b eqn:?
         | _ ∈ [if ?b then _ else _] => destruct b eqn:?
         | _ ∈ _ :: _ => apply elem_of_cons in H as [H|H]
         | _ ∈ [] => apply elem_of_nil in H; destruct H
         end.

(** X16: a line is written only if the logger is not silenced and the
    priority of the line does not exceed the mask; every sink gets the same
    text; the error file and standard error get lines of priority [ERR] or
    worse only, standard output gets the others, and no line goes to both
    standard streams; what reaches the error file also reaches the log
    file when there is one; and raising the mask never loses a line. *)
Theorem log_routing (l : Open) (prio : Z) (line : string) :
  (∀ sink text, (sink, text) ∈ log l prio line →
     text = line
     ∧ (prio ≤ mask (settings l))%Z
     ∧ silence (settings l) = false
     ∧ (sink = ErrFile ∨ sink = Stderr → (prio ≤ 3)%Z)
     ∧ (sink = Stdout → (3 < prio)%Z)
     ∧ (sink = LogFile → logFile l = true)
     ∧ (sink = ErrFile → errFile l = true)
     ∧ (sink = Stderr ∨ sink = Stdout → cons (settings l) = true))
  ∧ ¬ ((Stderr, line) ∈ log l prio line ∧ (Stdout, line) ∈ log l prio line)
  ∧ ((ErrFile, line) ∈ log l prio line → logFile l = true →
     (LogFile, line) ∈ log l prio line)
  ∧ (∀ m x, (mask (settings l) ≤ m)%Z → x ∈ log l prio line →
            x ∈ log (withMask m l) prio line).
Proof.
  unfold log, withMask, ERR_THRESHOLD. cbn [settings mask silence cons logFile errFile].
  split; [|split; [|split]].
  - intros sink text Hin.
    destruct (Z.ltb_spec (mask (settings l)) prio); cbn [orb] in Hin;
      [apply elem_of_nil in Hin; destruct Hin|].
    destruct (silence (settings l)) eqn:Hs;
      [apply elem_of_nil in Hin; destruct Hin|].
    destruct (Z.leb_spec prio 3); rewrite ?andb_true_r, ?andb_false_r in Hin;
      in_list Hin; injection Hin as -> ->;
      repeat split; try lia; try discriminate; intros [|]; discriminate.
  - intros [Herr Hout].
    destruct (Z.ltb_spec (mask (settings l)) prio); cbn [orb] in Herr, Hout;
      [apply elem_of_nil in Herr; destruct Herr|].
    destruct (silence (settings l));
      [apply elem_of_nil in Herr; destruct Herr|].
    destruct (Z.leb_spec prio 3);
      rewrite ?andb_true_r, ?andb_false_r in Herr, Hout;
      in_list Herr; in_list Hout; discriminate.
  - intros Herr Hlog.
    destruct (Z.ltb_spec (mask (settings l)) prio); cbn [orb] in Herr |- *;
      [apply elem_of_nil in Herr; destruct Herr|].
    destruct (silence (settings l));
      [apply elem_of_nil in Herr; destruct Herr|].
    rewrite Hlog. apply elem_of_app. left. left.
  - intros m x Hm Hin.
    destruct (Z.ltb_spec (mask (settings l)) prio); cbn [orb] in Hin;
      [apply elem_of_nil in Hin; destruct Hin|].
    destruct (Z.ltb_spec m prio); [lia|]. exact Hin.
Qed.

Lemma checkStream_ok (a b : string) (v : option JsArg) :
  checkStream a b v = Ok tt →
  v = None ∨ (∃ n, v = Some (ANum n)) ∨ (∃ s, v = Some (AStr s))
  ∨ v = Some (AStream true).
Proof.
  destruct v as [[| |bo|n|s|[|]]|]; cbn; intros H; try discriminate H; eauto.
Qed.

Lemma checkOpts_ok (o : Opts) (st : Settings) :
  checkOpts o = Ok st →
  file st = o_file o ∧ error st = o_error o
  ∧ checkStream "opts.file writable stream must have a write function"
      "opts.file must be a string or a number" (o_file o) = Ok tt
  ∧ checkStream "opts.error writable stream must have a write function"
      "opts.error must be a string or a number" (o_error o) = Ok tt
  ∧ (cons st = true ∨ optTruthy (file st) = true
     ∨ optTruthy (error st) = true ∨ silence st = true)
  ∧ ident st ≠ EmptyString
  ∧ mask st = match o_mask o with Some (ANum n) => n | _ => NOTICE end.
Proof.
  unfold checkOpts.
  destruct (o_ident o) as [[| |bo|n|s|w]|]; try discriminate;
    destruct (checkStream _ _ (o_file o)) as [[]|e1] eqn:Hf; try discriminate;
    destruct (checkStream _ _ (o_error o)) as [[]|e2] eqn:He; try discriminate;
    destruct (o_console o) as [[| |cb|cn|cs|cw]|]; try discriminate;
    destruct (o_mask o) as [[| |mb|mn|ms|mw]|]; try discriminate;
    destruct (o_silence o) as [[| |sb|sn|ss|sw]|]; try discriminate;
    match goal with
    | |- context [if ?c then _ else _] => destruct c eqn:Hnone
    end; try discriminate;
    intros [= <-]; cbn [file error cons silence ident mask];
    repeat split;
    try (destruct (String.eqb_spec s EmptyString); congruence);
    try discriminate;
    repeat match goal with
           | H : context [negb ?b] |- _ => destruct b eqn:?; cbn in H
           end; try discriminate; auto.
Qed.

(** X18: once the options have passed the checks of [logger], opening the
    log file or the error file can fail only for a file name that the file
    system refuses: a stream without [write], [null] and values of other
    types never get as far as [openFile], and a file descriptor is taken
    without a check. *)
Theorem openFile_after_checkOpts (fsOpen : string → Result unit)
    (o : Opts) (st : Settings) (f : JsArg) :
  checkOpts o = Ok st →
  file st = Some f ∨ error st = Some f →
  argTruthy f = true →
  openFile fsOpen f = OpenedOk
  ∨ ∃ path e, f = AStr path ∧ path ≠ EmptyString
              ∧ fsOpen path = Err e ∧ openFile fsOpen f = OpenFailed e.
Proof.
  intros Hok Hf Htruthy.
  destruct (checkOpts_ok _ _ Hok) as (Hfile & Herror & Hcf & Hce & _).
  assert (Hshape : (∃ n, f = ANum n) ∨ (∃ s, f = AStr s) ∨ f = AStream true).
  { destruct Hf as [Hf|Hf].
    - rewrite Hfile in Hf. rewrite Hf in Hcf.
      apply checkStream_ok in Hcf as [H|[[n H]|[[s H]|H]]];
        try discriminate H; injection H as ->; eauto.
    - rewrite Herror in Hf. rewrite Hf in Hce.
      apply checkStream_ok in Hce as [H|[[n H]|[[s H]|H]]];
        try discriminate H; injection H as ->; eauto. }
  destruct Hshape as [[n ->]|[[s ->]| ->]]; cbn; auto.
  destruct (fsOpen s) as [[]|e] eqn:Hopen; [auto|].
  right. exists s, e. repeat split; auto.
  intros ->. discriminate Htruthy.
Qed.

(** X19: the settings that [logger] accepts always name a way to log
    (the console, a truthy file, a truthy error file, or silence); the
    identity is never empty; and the mask is the number given or
    [NOTICE]. *)
Theorem checkOpts_settings (o : Opts) (st : Settings) :
  checkOpts o = Ok st →
  (cons st = true ∨ optTruthy (file st) = true
   ∨ optTruthy (error st) = true ∨ silence st = true)
  ∧ ident st ≠ EmptyString
  ∧ mask st = match o_mask o with Some (ANum n) => n | _ => NOTICE end.
Proof.
  intros Hok. destruct (checkOpts_ok _ _ Hok) as (_ & _ & _ & _ & H1 & H2 & H3).
  repeat split; auto.
Qed.

Lemma checkOpts_null_mask (o : Opts) :
  o_mask o = Some ANull → ∃ e, checkOpts o = Err e.
Proof.
  intros Hmask. unfold checkOpts. rewrite Hmask.
  destruct (o_ident o) as [[| |bo|n|s|w]|]; eauto;
    destruct (checkStream _ _ (o_file o)) as [[]|e1]; eauto;
    destruct (checkStream _ _ (o_error o)) as [[]|e2]; eauto;
    destruct (o_console o) as [[| |cb|cn|cs|cw]|]; eauto.
Qed.

Lemma not_in_PRIOS (x : string) :
  x ∉ PRIOS → arrayIndexOf x PRIOS = None.
Proof.
  intros Hx. destruct (arrayIndexOf x PRIOS) as [i|] eqn:Hi; [|reflexivity].
  apply arrayIndexOf_lookup in Hi. destruct Hx.
  apply list_elem_of_lookup. eauto.
Qed.

(** X20: the server hands [logger] the mask that [levelToPrio] makes of
    the configured level. A level that is not one of the nine priority
    names makes that mask [null] and [logger] throw; a priority name, in
    any letter case, gives its number as the mask; and without a level
    the mask is [NOTICE]. *)
Theorem pdb_log_level (logCfg : Opts) (level : string) :
  isAsciiText level →
  (level ≠ EmptyString → toUpperCase level ∉ PRIOS →
   ∃ e, checkOpts (pdbLogOpts logCfg (Some level)) = Err e)
  ∧ (∀ i st, PRIOS !! i = Some (toUpperCase level) →
       checkOpts (pdbLogOpts logCfg (Some level)) = Ok st →
       mask st = Z.of_nat i)
  ∧ (∀ st, checkOpts (pdbLogOpts logCfg None) = Ok st →
       mask st = NOTICE ∧ ident st = "pdb").
Proof.
  intros _. split; [|split].
  - intros Hne Hunknown. apply checkOpts_null_mask.
    unfold pdbLogOpts. cbn [o_mask]. rewrite (truthy_Some _ Hne).
    cbn [default from_option id]. unfold levelToPrio.
    rewrite (truthy_Some _ Hne). cbn [default from_option id].
    rewrite (not_in_PRIOS _ Hunknown). reflexivity.
  - intros i st Hi Hok.
    assert (Hne : level ≠ EmptyString).
    { intros ->. do 9 (destruct i as [|i]; [discriminate Hi|]).
      discriminate Hi. }
    destruct (checkOpts_ok _ _ Hok) as (_ & _ & _ & _ & _ & _ & Hmask).
    rewrite Hmask. unfold pdbLogOpts. cbn [o_mask].
    rewrite (truthy_Some _ Hne). cbn [default from_option id].
    unfold levelToPrio. rewrite (truthy_Some _ Hne).
    cbn [default from_option id].
    rewrite (lookup_arrayIndexOf _ _ _ PRIOS_NoDup Hi). reflexivity.
  - intros st Hok.
    destruct (checkOpts_ok _ _ Hok) as (_ & _ & _ & _ & _ & _ & Hmask).
    split; [rewrite Hmask; reflexivity|].
    unfold checkOpts in Hok. cbn [pdbLogOpts o_ident o_file o_error o_console o_mask o_silence] in Hok.
    destruct (checkStream _ _ (o_file logCfg)) as [[]|e1]; [|discriminate];
      destruct (checkStream _ _ (o_error logCfg)) as [[]|e2]; [|discriminate];
      destruct (o_console logCfg) as [[| |cb|cn|cs|cw]|]; try discriminate;
      destruct (levelToPrio _) as [j|]; try discriminate;
      destruct (o_silence logCfg) as [[| |sb|sn|ss|sw]|]; try discriminate;
      match type of Hok with
      | context [if ?c then _ else _] => destruct c
      end; try discriminate; injection Hok as <-; reflexivity.
Qed.

Lemma errorsOf_Ok (u : unit) (rest : list (Result unit)) :
  errorsOf (Ok u :: rest) = errorsOf rest.
Proof. reflexivity. Qed.

Lemma errorsOf_Err (e : string) (rest : list (Result unit)) :
  errorsOf (Err e :: rest) = e :: errorsOf rest.
Proof. reflexivity. Qed.

Lemma runTasks_short (total : nat) (completions : list (Result unit))
    (tasksDone : nat) :
  tasksDone + length completions < total →
  runTasks total tasksDone completions = CbErr <$> errorsOf completions.
Proof.
  revert tasksDone. induction completions as [|[u|e] rest IH];
    intros tasksDone Hlt; cbn [runTasks length] in *; [reflexivity| |].
  - rewrite errorsOf_Ok.
    destruct (Nat.eqb_spec (S tasksDone) total); [lia|].
    apply IH. lia.
  - rewrite errorsOf_Err. cbn [fmap list_fmap]. f_equal. apply IH. lia.
Qed.

Lemma runTasks_exact (total : nat) (completions : list (Result unit))
    (tasksDone : nat) :
  tasksDone + length completions = total →
  completions ≠ [] →
  runTasks total tasksDone completions
  = if allOk completions then [CbDone] else CbErr <$> errorsOf completions.
Proof.
  revert tasksDone. induction completions as [|[u|e] rest IH];
    intros tasksDone Hlen Hne; [contradiction| |];
    cbn [runTasks length] in *.
  - change (allOk (Ok u :: rest)) with (allOk rest). rewrite errorsOf_Ok.
    destruct rest as [|r rest].
    + cbn [length] in Hlen.
      destruct (Nat.eqb_spec (S tasksDone) total); [|lia]. reflexivity.
    + destruct (Nat.eqb_spec (S tasksDone) total); [cbn [length] in Hlen; lia|].
      apply IH; [lia|discriminate].
  - change (allOk (Err e :: rest)) with false. rewrite errorsOf_Err.
    cbn [fmap list_fmap]. f_equal. apply runTasks_short. lia.
Qed.

(** X21: whatever the order in which the tasks of [logger] (or of [close])
    complete, the callback is called exactly once, without an error, when
    all of them succeed; when some fail it is called once for every
    failing task with that task's error, so more than once when two fail,
    and never without an error. *)
Theorem runTasks_callbacks (st : Settings)
    (completions : list (Result unit)) :
  length completions = taskCount st →
  (allOk completions = true →
   runTasks (taskCount st) 0 completions = [CbDone])
  ∧ (allOk completions = false →
     runTasks (taskCount st) 0 completions
       = CbErr <$> errorsOf completions
     ∧ CbDone ∉ runTasks (taskCount st) 0 completions
     ∧ 0 < length (errorsOf completions)).
Proof.
  intros Hlen.
  assert (Hne : completions ≠ []).
  { intros ->. unfold taskCount in Hlen. cbn in Hlen. lia. }
  rewrite (runTasks_exact _ _ 0 Hlen Hne).
  split; intros Hall; rewrite Hall; [reflexivity|].
  split; [reflexivity|]. split.
  - intros (e & He & _)%list_elem_of_fmap. discriminate He.
  - clear Hlen Hne. induction completions as [|[[]|e] rest IH];
      cbn in *; [discriminate|auto|lia].
Qed.

End LoggerFacts.

(** ** The path of a store *)

Section OpenDbFacts.
Import OpenDb.



End OpenDbFacts.

(** ** Instances *)

Lemma requireJsFromDirsSync_sound_witness :
  HookFiles.LoadedFrom SampleHooks.readdirSync SampleHooks.statIsFile
    SampleHooks.requireModule ["/hooks"] "ab" "/hooks/ab".
Proof.
  apply (proj1 (requireJsFromDirsSync_sound SampleHooks.readdirSync
                  SampleHooks.statIsFile SampleHooks.requireModule
                  ["/hooks"]) SampleHooks.table).
  - vm_compute. reflexivity.
  - vm_compute. reflexivity.
Defined.


Lemma prepareDirection_hide_hook_witness :
  ∃ p hs,
    Hooks.prepareDirection SampleHooks.table SampleHooks.direction = Ok p
    ∧ length hs = 1
    ∧ Hooks.p_hooks p
      = Some (hs ++ [Hooks.Hide (Hooks.OKeys ["password"])]).
Proof.
  eexists.
  destruct (prepareDirection_hide_hook SampleHooks.table
              SampleHooks.direction _ eq_refl) as (_ & _ & Hlast).
  destruct (Hlast ["strip"] _ (Hooks.OKeys ["password"])
              eq_refl eq_refl eq_refl eq_refl) as (hs & Hlen & Hhooks & _).
  exists hs. split; [reflexivity|]. split; [exact Hlen|exact Hhooks].
Defined.

Lemma levelToPrio_iff_witness :
  Logger.levelToPrio (Some "debug") = Some 7.
Proof.
  assert (Hascii : Logger.isAsciiText "debug")
    by (repeat constructor; vm_compute; lia).
  destruct (levelToPrio_iff "debug" 7 Hascii) as ((_ & Hfind) & _).
  apply Hfind. reflexivity.
Defined.

Lemma openFile_after_checkOpts_witness :
  Logger.openFile SampleHooks.refuse (Logger.AStr "/var/log/persdb.log")
  = Logger.OpenedOk
  ∨ ∃ path e,
      Logger.AStr "/var/log/persdb.log" = Logger.AStr path
      ∧ path ≠ EmptyString
      ∧ SampleHooks.refuse path = Err e
      ∧ Logger.openFile SampleHooks.refuse
          (Logger.AStr "/var/log/persdb.log") = Logger.OpenFailed e.
Proof.
  apply (openFile_after_checkOpts SampleHooks.refuse SampleHooks.logOpts
           _ _ eq_refl).
  - left. reflexivity.
  - reflexivity.
Defined.

Lemma checkOpts_settings_witness :
  ∃ st, Logger.checkOpts SampleHooks.logOpts = Ok st
        ∧ Logger.mask st = Logger.NOTICE.
Proof.
  eexists. split; [reflexivity|].
  destruct (checkOpts_settings SampleHooks.logOpts _ eq_refl)
    as (_ & _ & Hmask). exact Hmask.
Defined.

Lemma pdb_log_level_witness :
  ∃ e, Logger.checkOpts
         (Logger.pdbLogOpts SampleHooks.logOpts (Some "verbose")) = Err e.
Proof.
  assert (Hascii : Logger.isAsciiText "verbose")
    by (repeat constructor; vm_compute; lia).
  destruct (pdb_log_level SampleHooks.logOpts "verbose" Hascii)
    as (Hunknown & _).
  apply Hunknown.
  - discriminate.
  - vm_compute. intros Hin.
    repeat (apply elem_of_cons in Hin as [Hin|Hin]; [discriminate Hin|]).
    apply elem_of_nil in Hin. exact Hin.
Defined.

Lemma runTasks_callbacks_witness :
  ∃ st, Logger.checkOpts SampleHooks.logOpts = Ok st
        ∧ Logger.runTasks (Logger.taskCount st) 0
            [Ok tt; Err "EACCES"; Err "ENOSPC"]
          = [Logger.CbErr "EACCES"; Logger.CbErr "ENOSPC"].
Proof.
  eexists. split; [reflexivity|].
  match goal with
  | |- Logger.runTasks (Logger.taskCount ?st) _ _ = _ =>
      destruct (runTasks_callbacks st [Ok tt; Err "EACCES"; Err "ENOSPC"]
                  eq_refl) as (_ & Hfailed)
  end.
  destruct (Hfailed eq_refl) as (Hcbs & _). exact Hcbs.
Defined.
